(** * pub-sub-es6: a shallow embedding of [src/pubsub.js]

    The registry of the source is a JavaScript [Map] from topic names to
    arrays of [Subscription] objects.  The embedding keeps the shapes of the
    source:

    - JavaScript values are an inductive type with a [typeof] function, so
      that the argument checks of the source can be written as they are;
    - numbers are the values a budget can take: [NaN], the two infinities,
      the integers and the finite numbers that are not integers; taking one
      off an integer rounds as binary64 does, which is exact up to 2^53;
    - the [Map] is an association list in insertion order, an array is a
      list read with [!!] and spliced with [delete];
    - every method is a computation in a small state-and-exception monad
      over a [Realm]: the registry, the symbol allocator, the world the
      handlers act on, and the trace of handler invocations;
    - a handler is an opaque callable.  For most of the development a
      handler acts on a world of its own and returns or throws ([invoke]);
      [publishRe] is [publish] for handlers that may do anything to the
      realm, call the registry or write to their subscription ([run]), and
      the two agree on the handlers that do not ([aloof]). *)

From Stdlib Require Import ZArith QArith String List Lia Bool.
From stdpp Require Import base list strings.
Import ListNotations.

Local Open Scope nat_scope.

(** ** Values *)

Definition SymbolId := nat.
Definition FunctionId := nat.

(** JavaScript numbers, as far as a budget is concerned: [Fin z] is the
    integer [z], [Frac q] a finite number that is not an integer. *)
Inductive Number : Type :=
| NaN
| PosInf
| NegInf
| Fin (z : Z)
| Frac (q : Q).

Definition Q_ltb (x y : Q) : bool :=
  match (x ?= y)%Q with
  | Lt => true
  | _ => false
  end.

(** [a < b] on numbers: false as soon as one side is [NaN]. *)
Definition Number_lt (a b : Number) : bool :=
  match a, b with
  | NaN, _ => false
  | _, NaN => false
  | PosInf, _ => false
  | _, NegInf => false
  | NegInf, _ => true
  | _, PosInf => true
  | Fin x, Fin y => (x <? y)%Z
  | Fin x, Frac q => Q_ltb (inject_Z x) q
  | Frac q, Fin y => Q_ltb q (inject_Z y)
  | Frac p, Frac q => Q_ltb p q
  end.

(** [a > b] is [b < a]. *)
Definition Number_gt (a b : Number) : bool := Number_lt b a.

(** The binary64 number nearest to the integer [n].  Up to 2^53 in absolute
    value every integer is one.  Beyond, the numbers are the multiples of
    [2^e] with a 53-bit factor, [e] being the position of the leading bit
    less 52: [n] goes to the nearer of the two around it and, half way, to
    the one whose factor is even. *)
Definition round64 (n : Z) : Z :=
  let a := Z.abs n in
  if (a <=? 9007199254740992)%Z then n
  else
    let e := (Z.log2 a - 52)%Z in
    let q := Z.shiftr a e in
    let rest := (a - Z.shiftl q e)%Z in
    let half := Z.shiftl 1 (e - 1) in
    let q' :=
      if (rest <? half)%Z then q
      else if (half <? rest)%Z then (q + 1)%Z
      else if Z.even q then q else (q + 1)%Z in
    (Z.sgn n * Z.shiftl q' e)%Z.

(** [a - 1].  On the numbers that are not integers the difference is exact
    for every value a budget takes: such a budget starts at a number of at
    least [1], a multiple of [2^-52], and goes down by one at a time. *)
Definition Number_pred (a : Number) : Number :=
  match a with
  | Fin z => Fin (round64 (z - 1))
  | Frac q => Frac (Qred (q - 1))
  | other => other
  end.

Definition Infinity : Number := PosInf.

Inductive JSValue : Type :=
| VUndefined
| VNull
| VBoolean (b : bool)
| VNumber (n : Number)
| VString (s : string)
| VSymbol (s : SymbolId)
| VFunction (f : FunctionId)
| VObject (o : nat).

Inductive TypeTag : Type :=
| TUndefined | TObject | TBoolean | TNumber | TString | TSymbol | TFunction.

Definition typeof (v : JSValue) : TypeTag :=
  match v with
  | VUndefined => TUndefined
  | VNull => TObject
  | VBoolean _ => TBoolean
  | VNumber _ => TNumber
  | VString _ => TString
  | VSymbol _ => TSymbol
  | VFunction _ => TFunction
  | VObject _ => TObject
  end.

(** What a call can throw: one of the [TypeError]s of the source, or whatever
    a handler throws. *)
Inductive Exception : Type :=
| TypeError (message : string)
| Thrown (value : JSValue).

Inductive Completion (A : Type) : Type :=
| Normal (a : A)
| Throw (e : Exception).
Arguments Normal {A} a.
Arguments Throw {A} e.

(** ** Subscriptions and the topic map *)

(** [class Subscription]: the fields set by the constructor. *)
Record Subscription : Type := mkSubscription {
  symbol : SymbolId;
  invocationsLeft : Number;
  handler : FunctionId;
}.

(** [sub.invocationsLeft -= 1] *)
Definition decrement (sub : Subscription) : Subscription :=
  {| symbol := symbol sub;
     invocationsLeft := Number_pred (invocationsLeft sub);
     handler := handler sub |}.

(** The [Map] of topic names to arrays, in insertion order. *)
Definition TopicMap : Type := list (string * list Subscription).

Fixpoint Map_get (topic : string) (m : TopicMap) : option (list Subscription) :=
  match m with
  | [] => None
  | (t, subs) :: rest =>
      if String.eqb t topic then Some subs else Map_get topic rest
  end.

Definition Map_has (topic : string) (m : TopicMap) : bool :=
  match Map_get topic m with
  | Some _ => true
  | None => false
  end.

(** [Map.set]: an existing key keeps its place, a new key goes last. *)
Fixpoint Map_set (topic : string) (v : list Subscription) (m : TopicMap) : TopicMap :=
  match m with
  | [] => [(topic, v)]
  | (t, subs) :: rest =>
      if String.eqb t topic then (t, v) :: rest
      else (t, subs) :: Map_set topic v rest
  end.

(** An in-place mutation [f] of the array stored under [topic]: the array is
    an object shared with the map, so the map sees the change. *)
Fixpoint Map_mutate (topic : string) (f : list Subscription -> list Subscription)
    (m : TopicMap) : TopicMap :=
  match m with
  | [] => []
  | (t, subs) :: rest =>
      if String.eqb t topic then (t, f subs) :: rest
      else (t, subs) :: Map_mutate topic f rest
  end.

(** The array stored under [topic], as it is now. *)
Definition liveArray (topic : string) (m : TopicMap) : list Subscription :=
  match Map_get topic m with
  | Some subs => subs
  | None => []
  end.

(** The scan of an array through [entries()] for the first subscription with
    a given handler, or a given symbol: its index and the subscription. *)
Definition findHandler (f : FunctionId) (subs : list Subscription)
    : option (nat * Subscription) :=
  list_find (fun sub => handler sub = f) subs.

Definition findSymbol (s : SymbolId) (subs : list Subscription)
    : option (nat * Subscription) :=
  list_find (fun sub => symbol sub = s) subs.

(** The loop of [unsubscribeSymbol] over [Map.values()] and, inside, over
    [entries()]: the first array, in insertion order, that holds a
    subscription with the symbol loses the first such subscription. *)
Fixpoint spliceSymbol (s : SymbolId) (m : TopicMap) : option TopicMap :=
  match m with
  | [] => None
  | (t, subs) :: rest =>
      match findSymbol s subs with
      | Some (idx, _) => Some ((t, delete idx subs) :: rest)
      | None =>
          match spliceSymbol s rest with
          | Some rest' => Some ((t, subs) :: rest')
          | None => None
          end
      end
  end.

(** All the subscriptions of the registry, topic after topic. *)
Definition allSubscriptions (m : TopicMap) : list Subscription :=
  concat (map snd m).

(** ** The realm and the monad of the methods *)

(** An entry of the trace: the handler called, the arguments it received,
    and how the call completed. *)
Definition Call : Type := FunctionId * list JSValue * Completion unit.

Section Machine.

Context {World : Type}.

(** The effect of calling handler [f] with [args]: the new world and how the
    call completes.  The returned value is ignored by the source. *)
Variable invoke : FunctionId -> list JSValue -> World -> Completion unit * World.

Record Realm : Type := mkRealm {
  topicToSubscriptionsMap : TopicMap;
  symbolCount : nat;
  world : World;
  calls : list Call;
}.

Definition M (A : Type) : Type := Realm -> Completion A * Realm.

Definition ret {A} (a : A) : M A := fun r => (Normal a, r).

Definition throw {A} (e : Exception) : M A := fun r => (Throw e, r).

Definition bind {A B} (m : M A) (k : A -> M B) : M B :=
  fun r =>
    match m r with
    | (Normal a, r') => k a r'
    | (Throw e, r') => (Throw e, r')
    end.

Notation "x <- m ;; k" := (bind m (fun x => k))
  (at level 100, m at next level, right associativity).
Notation "m ;;; k" := (bind m (fun _ => k))
  (at level 100, right associativity).

Definition getMap : M TopicMap :=
  fun r => (Normal (topicToSubscriptionsMap r), r).

(** The realm [r] with [m] for its topic map. *)
Definition withMap (m : TopicMap) (r : Realm) : Realm :=
  {| topicToSubscriptionsMap := m;
     symbolCount := symbolCount r;
     world := world r;
     calls := calls r |}.

Definition modifyMap (f : TopicMap -> TopicMap) : M unit :=
  fun r => (Normal tt, withMap (f (topicToSubscriptionsMap r)) r).

(** [Symbol(description)]: a symbol no earlier call has returned. *)
Definition Symbol : M SymbolId :=
  fun r =>
    (Normal (symbolCount r),
     {| topicToSubscriptionsMap := topicToSubscriptionsMap r;
        symbolCount := S (symbolCount r);
        world := world r;
        calls := calls r |}).

(** [handler(...args)]: the call is recorded, the handler acts on the world
    and returns or throws. *)
Definition recordCall (f : FunctionId) (args : list JSValue)
    (c : Completion unit) (w : World) (r : Realm) : Realm :=
  {| topicToSubscriptionsMap := topicToSubscriptionsMap r;
     symbolCount := symbolCount r;
     world := w;
     calls := calls r ++ [(f, args, c)] |}.

Definition callHandler (f : FunctionId) (args : list JSValue) : M unit :=
  fun r =>
    let '(c, w) := invoke f args (world r) in
    (c, recordCall f args c w r).

(** ** The assertions *)

Definition _assertValidTopic (topic : JSValue) : M string :=
  match topic with
  | VString s =>
      if Nat.eqb (String.length s) 0
      then throw (TypeError "Topic must be a non empty string")
      else ret s
  | _ => throw (TypeError "Topic must be a non empty string")
  end.

Definition _assertValidTopicAndHandler (topic handler : JSValue)
    : M (string * FunctionId) :=
  t <- _assertValidTopic topic ;;
  match handler with
  | VFunction f => ret (t, f)
  | _ => throw (TypeError "Handler must be a function.")
  end.

Definition _assertSymbol (symbol : JSValue) : M SymbolId :=
  match symbol with
  | VSymbol s => ret s
  | _ => throw (TypeError "Argument must be a symbol")
  end.

(** ** [new Subscription({symbol, handler, invocationsLeft})] *)

Definition Subscription_new (symbol : SymbolId) (handler : FunctionId)
    (invocationsLeft : JSValue) : M Subscription :=
  match invocationsLeft with
  | VNumber n =>
      if Number_lt n (Fin 1)
      then throw (TypeError "invocationsLeft must by a number > 0")
      else ret {| symbol := symbol; invocationsLeft := n; handler := handler |}
  | _ => throw (TypeError "invocationsLeft must by a number > 0")
  end.

(** ** [PubSub] *)

(** [new PubSub()], in a realm that has minted no symbol yet. *)
Definition PubSub_new (w : World) : Realm :=
  {| topicToSubscriptionsMap := []; symbolCount := 0; world := w; calls := [] |}.

(** A parameter with a default: [undefined] takes the default. *)
Definition defaultTo (d v : JSValue) : JSValue :=
  match v with
  | VUndefined => d
  | _ => v
  end.

Definition subscribe (topic handler invocationsLeft : JSValue) : M SymbolId :=
  let invocationsLeft := defaultTo (VNumber Infinity) invocationsLeft in
  th <- _assertValidTopicAndHandler topic handler ;;
  m <- getMap ;;
  (if Map_has (fst th) m then ret tt
   else modifyMap (Map_set (fst th) [])) ;;;
  symbol <- Symbol ;;
  subscription <- Subscription_new symbol (snd th) invocationsLeft ;;
  modifyMap (Map_mutate (fst th) (fun subs => subs ++ [subscription])) ;;;
  ret symbol.

Definition unsubscribeSymbol (symbol : JSValue) : M bool :=
  s <- _assertSymbol symbol ;;
  m <- getMap ;;
  match spliceSymbol s m with
  | Some m' => modifyMap (fun _ => m') ;;; ret true
  | None => ret false
  end.

Definition unsubscribeHandler (topic handler : JSValue) : M bool :=
  th <- _assertValidTopicAndHandler topic handler ;;
  m <- getMap ;;
  if negb (Map_has (fst th) m) then ret false
  else
    match findHandler (snd th) (liveArray (fst th) m) with
    | Some (idx, _) =>
        modifyMap (Map_mutate (fst th) (delete idx)) ;;; ret true
    | None => ret false
    end.

Definition unsubscribe (args : list JSValue) : M bool :=
  match args with
  | [a] => unsubscribeSymbol a
  | [a; b] => unsubscribeHandler a b
  | _ => throw (TypeError "Must pass 1 or 2 arguments")
  end.

(** [Array.prototype.forEach] on the array stored under [topic].  The length
    is read once, before the first call ([n] is the number of indices still
    to visit, [k] the next one); each index is looked up in the array as it
    is when its turn comes, and an index the array no longer has is passed
    over.  The callback receives the index together with the element: the
    element is an object, and a write to one of its fields is a write to the
    array at that index. *)
Fixpoint forEach (topic : string) (callback : nat -> Subscription -> M unit)
    (k n : nat) : M unit :=
  match n with
  | 0 => ret tt
  | S n' =>
      fun r =>
        match liveArray topic (topicToSubscriptionsMap r) !! k with
        | Some sub => (callback k sub ;;; forEach topic callback (S k) n') r
        | None => forEach topic callback (S k) n' r
        end
  end.

(** The arrow function given to [forEach] by [publish]. *)
Definition publishOne (topic : string) (args : list JSValue)
    (k : nat) (sub : Subscription) : M unit :=
  if Number_gt (invocationsLeft sub) (Fin 0) then
    callHandler (handler sub) args ;;;
    modifyMap (Map_mutate topic (alter decrement k))
  else
    unsubscribeHandler (VString topic) (VFunction (handler sub)) ;;; ret tt.

Definition publish (topic : JSValue) (args : list JSValue) : M bool :=
  t <- _assertValidTopic topic ;;
  m <- getMap ;;
  match Map_get t m with
  | None => ret false
  | Some subscriptions =>
      if Nat.eqb (length subscriptions) 0 then ret false
      else
        forEach t (publishOne t args) 0 (length subscriptions) ;;;
        ret true
  end.

(** [n] calls of [publish] in a row, with the same topic and arguments. *)
Fixpoint publishTimes (n : nat) (topic : JSValue) (args : list JSValue)
    (r : Realm) : Realm :=
  match n with
  | 0 => r
  | S n' => publishTimes n' topic args (snd (publish topic args r))
  end.

(** ** Reachable states *)

(** The states of a realm in which a program has created one registry and
    then called its methods, in any order and with any arguments.  A call
    that throws still leaves its state behind.  Between the calls the rest of
    the program can mint symbols of its own and change the world. *)
Inductive reachable : Realm -> Prop :=
| reachable_new w :
    reachable (PubSub_new w)
| reachable_subscribe r topic handler invocationsLeft :
    reachable r ->
    reachable (snd (subscribe topic handler invocationsLeft r))
| reachable_publish r topic args :
    reachable r ->
    reachable (snd (publish topic args r))
| reachable_unsubscribe r args :
    reachable r ->
    reachable (snd (unsubscribe args r))
| reachable_Symbol r :
    reachable r ->
    reachable (snd (Symbol r))
| reachable_world r w :
    reachable r ->
    reachable {| topicToSubscriptionsMap := topicToSubscriptionsMap r;
                 symbolCount := symbolCount r;
                 world := w;
                 calls := calls r |}.

End Machine.

Arguments Realm : clear implicits.
Arguments M : clear implicits.



(** ** Handlers that use the registry *)

(** [sub.invocationsLeft -= 1] after the handler has run: the write goes to
    the object [sub], wherever the handler has left it.  The object is the
    one that carries the symbol of [sub]; it loses one from its budget if it
    is still in the array, and the array is untouched if it is not. *)
Definition decrementObject (s : SymbolId) (subs : list Subscription)
    : list Subscription :=
  map (fun x => if Nat.eqb (symbol x) s then decrement x else x) subs.

(** The realm [r] with [w] for its world. *)
Definition withWorld {World} (w : World) (r : Realm World) : Realm World :=
  {| topicToSubscriptionsMap := topicToSubscriptionsMap r;
     symbolCount := symbolCount r;
     world := w;
     calls := calls r |}.

Section Reentrant.

Context {World : Type}.

(** The effect of [sub.handler(...args)] when the handler may do anything a
    JavaScript function can: act on the world, call [subscribe], [publish]
    and [unsubscribe] on the registry, write to the fields of the
    subscription it is called on.  The handler is given its [this], the
    object [sub], named by the symbol it carries, and the arguments; it takes
    the realm and leaves a realm. *)
Variable run :
  SymbolId -> FunctionId -> list JSValue -> Realm World ->
  Completion unit * Realm World.

Notation "x <- m ;; k" := (bind m (fun x => k))
  (at level 100, m at next level, right associativity).
Notation "m ;;; k" := (bind m (fun _ => k))
  (at level 100, right associativity).

Definition callHandlerRe (this : SymbolId) (f : FunctionId)
    (args : list JSValue) : M World unit :=
  fun r =>
    let '(c, r1) := run this f args r in
    (c, recordCall f args c (world r1) r1).

(** The arrow function given to [forEach] by [publish]. *)
Definition publishOneRe (topic : string) (args : list JSValue)
    (k : nat) (sub : Subscription) : M World unit :=
  if Number_gt (invocationsLeft sub) (Fin 0) then
    callHandlerRe (symbol sub) (handler sub) args ;;;
    modifyMap (Map_mutate topic (decrementObject (symbol sub)))
  else
    unsubscribeHandler (VString topic) (VFunction (handler sub)) ;;; ret tt.

Definition publishRe (topic : JSValue) (args : list JSValue) : M World bool :=
  t <- _assertValidTopic topic ;;
  m <- getMap ;;
  match Map_get t m with
  | None => ret false
  | Some subscriptions =>
      if Nat.eqb (length subscriptions) 0 then ret false
      else
        forEach t (publishOneRe t args) 0 (length subscriptions) ;;;
        ret true
  end.

(** [n] calls of [publish] in a row, with the same topic and arguments. *)
Fixpoint publishTimesRe (n : nat) (topic : JSValue) (args : list JSValue)
    (r : Realm World) : Realm World :=
  match n with
  | 0 => r
  | S n' => publishTimesRe n' topic args (snd (publishRe topic args r))
  end.


End Reentrant.

(** A handler that acts on the world alone, as a handler that is given the
    realm: it makes no use of [this] and leaves the registry, the symbols
    and the trace as they are. *)
Definition aloof {World}
    (invoke : FunctionId -> list JSValue -> World -> Completion unit * World)
    (this : SymbolId) (f : FunctionId) (args : list JSValue) (r : Realm World)
    : Completion unit * Realm World :=
  let '(c, w) := invoke f args (world r) in (c, withWorld w r).

(** ** Predicates on subscriptions and registries *)

(** The test [sub.invocationsLeft > 0] of [publish]: the budget is a positive
    number or unbounded. *)
Definition eligible (sub : Subscription) : bool :=
  Number_gt (invocationsLeft sub) (Fin 0).

(** No two subscriptions of the registry carry the same symbol, and every
    symbol carried has been minted. *)
Definition symbolsDistinct (m : TopicMap) : Prop :=
  NoDup (map symbol (allSubscriptions m)).

Definition symbolsMinted (count : nat) (m : TopicMap) : Prop :=
  Forall (fun sub => symbol sub < count) (allSubscriptions m).

(** The two together, for a realm and its symbol allocator. *)
Definition wellFormed {World} (r : Realm World) : Prop :=
  symbolsDistinct (topicToSubscriptionsMap r) /\
  symbolsMinted (symbolCount r) (topicToSubscriptionsMap r).



(** Some subscription of the registry carries symbol [s]. *)
Definition carried (s : SymbolId) (m : TopicMap) : Prop :=
  exists sub, sub ∈ allSubscriptions m /\ symbol sub = s.

(** The handlers [publish] invokes on [subs] when nothing is removed. *)
Definition invocations (args : list JSValue) (subs : list Subscription)
    : list Call :=
  map (fun sub => (handler sub, args, Normal tt)) subs.

(** From index [k] on, the array stored under [t] holds only subscriptions
    of [subs0], as they are in [subs0]. *)
Definition untouchedFrom {World} (k : nat) (subs0 : list Subscription)
    (t : string) (r : Realm World) : Prop :=
  forall j sub,
    k <= j -> liveArray t (topicToSubscriptionsMap r) !! j = Some sub ->
    sub ∈ subs0.

(** A call of the trace that returned. *)
Definition returned (c : Call) : Prop := snd c = Normal tt.

(** The topics that have an array, in insertion order. *)
Definition topicsOf (m : TopicMap) : list string := map fst m.

(** What a pass of [publish] makes of the part of the array it has still to
    visit, when no handler is subscribed twice to the topic: the part as the
    pass leaves it, and the subscriptions whose handlers it invokes.  An
    eligible subscription fires and loses one from its budget; an exhausted
    one is spliced out, and the subscription that took its index is passed
    over. *)
Fixpoint passOutcome (subs : list Subscription)
    : list Subscription * list Subscription :=
  match subs with
  | [] => ([], [])
  | x :: rest =>
      if eligible x then
        let (kept, fired) := passOutcome rest in (decrement x :: kept, x :: fired)
      else
        match rest with
        | [] => ([], [])
        | y :: rest' =>
            let (kept, fired) := passOutcome rest' in (y :: kept, fired)
        end
  end.

(** The argument checks of the source, as tests. *)
Definition isValidTopic (v : JSValue) : bool :=
  match v with
  | VString s => negb (Nat.eqb (String.length s) 0)
  | _ => false
  end.

Definition isFunction (v : JSValue) : bool :=
  match typeof v with
  | TFunction => true
  | _ => false
  end.

Definition isSymbol (v : JSValue) : bool :=
  match typeof v with
  | TSymbol => true
  | _ => false
  end.

Definition isValidBudget (v : JSValue) : bool :=
  match defaultTo (VNumber Infinity) v with
  | VNumber n => negb (Number_lt n (Fin 1))
  | _ => false
  end.

(** The topic map once [subscribe] has made sure that the topic has an
    array. *)
Definition ensured (t : string) (m : TopicMap) : TopicMap :=
  if Map_has t m then m else Map_set t [] m.

(** ** Sample handlers and scenarios *)

(** Handlers that all return. *)
Definition quiet (f : FunctionId) (args : list JSValue) (w : unit)
    : Completion unit * unit :=
  (Normal tt, w).

(** Handlers of which the one named [7] throws the string it is made for. *)
Definition faulty (f : FunctionId) (args : list JSValue) (w : unit)
    : Completion unit * unit :=
  if Nat.eqb f 7 then (Throw (Thrown (VString "boom")), w) else (Normal tt, w).

(** The state a computation leaves behind. *)
Definition after {World A} (m : M World A) (r : Realm World) : Realm World :=
  snd (m r).

Definition topicA : JSValue := VString "a".
Definition topicX : JSValue := VString "x".

Definition newRegistry : Realm unit := PubSub_new tt.

(** [subscribe("a", f1, 1); subscribe("a", f2); publish("a", 42)]: the first
    subscription has used up its budget and is still in the array, before
    the second, which is unbounded. *)
Definition exhaustedFirst : Realm unit :=
  after (publish quiet topicA [VNumber (Fin 42)])
    (after (subscribe topicA (VFunction 2) VUndefined)
       (after (subscribe topicA (VFunction 1) (VNumber (Fin 1))) newRegistry)).

(** [subscribe("a", f1, 1); subscribe("a", f2, 2); publish("a", 42)] *)
Definition budgetOneThenTwo : Realm unit :=
  after (publish quiet topicA [VNumber (Fin 42)])
    (after (subscribe topicA (VFunction 2) (VNumber (Fin 2)))
       (after (subscribe topicA (VFunction 1) (VNumber (Fin 1))) newRegistry)).

(** [subscribe("a", f, Infinity); subscribe("a", f, 1); publish("a", 42)]:
    the same handler twice, the second subscription exhausted. *)
Definition duplicateExhausted : Realm unit :=
  after (publish quiet topicA [VNumber (Fin 42)])
    (after (subscribe topicA (VFunction 1) (VNumber (Fin 1)))
       (after (subscribe topicA (VFunction 1) VUndefined) newRegistry)).

(** [subscribe("x", g, 1); subscribe("x", h); subscribe("x", h);
    publish("x", 42)]: an exhausted subscription, then the same handler
    twice. *)
Definition duplicatesAfterExhausted : Realm unit :=
  after (publish quiet topicX [VNumber (Fin 42)])
    (after (subscribe topicX (VFunction 2) VUndefined)
       (after (subscribe topicX (VFunction 2) VUndefined)
          (after (subscribe topicX (VFunction 1) (VNumber (Fin 1))) newRegistry))).

(** [subscribe("a", f, 1); publish("a", 42)] *)
Definition firedOnce : Realm unit :=
  after (publish quiet topicA [VNumber (Fin 42)])
    (after (subscribe topicA (VFunction 1) (VNumber (Fin 1))) newRegistry).





(** [subscribe("a", f3, 1); subscribe("a", f1); subscribe("a", f7, 3);
    subscribe("a", f2); publish("a", 42)], where [f7] throws: the first
    subscription is exhausted, and the call has stopped at [f7]. *)
Definition faultyAfterExhausted : Realm unit :=
  after (publish faulty topicA [VNumber (Fin 42)])
    (after (subscribe topicA (VFunction 2) VUndefined)
       (after (subscribe topicA (VFunction 7) (VNumber (Fin 3)))
          (after (subscribe topicA (VFunction 1) VUndefined)
             (after (subscribe topicA (VFunction 3) (VNumber (Fin 1)))
                newRegistry)))).

(** [subscribe("x", f1); subscribe("x", f2)], both unbounded. *)
Definition twoUnbounded : Realm unit :=
  after (subscribe topicX (VFunction 2) VUndefined)
    (after (subscribe topicX (VFunction 1) VUndefined) newRegistry).

(** [subscribe("a", f, 2)] *)
Definition loneBudgetTwo : Realm unit :=
  after (subscribe topicA (VFunction 1) (VNumber (Fin 2))) newRegistry.

(** [subscribe("a", f1); subscribe("a", f7, 3); subscribe("a", f2)], where
    [f7] is the handler that throws. *)
Definition withFaulty : Realm unit :=
  after (subscribe topicA (VFunction 2) VUndefined)
    (after (subscribe topicA (VFunction 7) (VNumber (Fin 3)))
       (after (subscribe topicA (VFunction 1) VUndefined) newRegistry)).

(** * Properties *)

(** ** The topic map *)

Section MapFacts.

Implicit Types (m pre post : TopicMap) (t : string) (subs : list Subscription).

Lemma Map_get_split t m subs :
  Map_get t m = Some subs ->
  exists pre post,
    m = pre ++ (t, subs) :: post /\ Map_get t pre = None /\
    forall f, Map_mutate t f m = pre ++ (t, f subs) :: post.
Proof.
  induction m as [|[t' subs'] m IH]; simpl; [discriminate|].
  destruct (String.eqb_spec t' t) as [->|Hne].
  - intros [= ->]. exists [], m. simpl. repeat split.
  - intros H. destruct (IH H) as (pre & post & -> & Hpre & Hmut).
    exists ((t', subs') :: pre), post. simpl.
    destruct (String.eqb_spec t' t); [congruence|].
    repeat split; [assumption|]. intros f. now rewrite Hmut.
Qed.

Lemma Map_get_app_None t pre m :
  Map_get t pre = None -> Map_get t (pre ++ m) = Map_get t m.
Proof.
  induction pre as [|[t' subs'] pre IH]; simpl; [reflexivity|].
  destruct (String.eqb t' t); [discriminate|exact IH].
Qed.

Lemma Map_mutate_absent t f m : Map_get t m = None -> Map_mutate t f m = m.
Proof.
  induction m as [|[t' subs'] m IH]; simpl; [reflexivity|].
  destruct (String.eqb t' t); [discriminate|]. intros H. now rewrite IH.
Qed.

Lemma Map_get_mutate t f m : Map_get t (Map_mutate t f m) = f <$> Map_get t m.
Proof.
  induction m as [|[t' subs'] m IH]; simpl; [reflexivity|].
  destruct (String.eqb_spec t' t) as [->|Hne]; simpl.
  - now rewrite String.eqb_refl.
  - destruct (String.eqb_spec t' t); [congruence|exact IH].
Qed.

Lemma liveArray_mutate t f m subs :
  Map_get t m = Some subs -> liveArray t (Map_mutate t f m) = f subs.
Proof. intros H. unfold liveArray. now rewrite Map_get_mutate, H. Qed.

Lemma liveArray_get t m subs : Map_get t m = Some subs -> liveArray t m = subs.
Proof. intros H. unfold liveArray. now rewrite H. Qed.

Lemma Map_get_set t v m : Map_get t (Map_set t v m) = Some v.
Proof.
  induction m as [|[t' subs'] m IH]; simpl.
  - now rewrite String.eqb_refl.
  - destruct (String.eqb_spec t' t) as [->|Hne]; simpl.
    + now rewrite String.eqb_refl.
    + destruct (String.eqb_spec t' t); [congruence|exact IH].
Qed.

Lemma Map_set_absent t v m : Map_get t m = None -> Map_set t v m = m ++ [(t, v)].
Proof.
  induction m as [|[t' subs'] m IH]; simpl; [reflexivity|].
  destruct (String.eqb t' t); [discriminate|]. intros H. now rewrite IH.
Qed.

Lemma allSubscriptions_app pre post :
  allSubscriptions (pre ++ post) = allSubscriptions pre ++ allSubscriptions post.
Proof. unfold allSubscriptions. now rewrite map_app, concat_app. Qed.

Lemma allSubscriptions_cons t subs post :
  allSubscriptions ((t, subs) :: post) = subs ++ allSubscriptions post.
Proof. reflexivity. Qed.

Lemma allSubscriptions_set_empty t m :
  Map_get t m = None -> allSubscriptions (Map_set t [] m) = allSubscriptions m.
Proof.
  intros H. rewrite (Map_set_absent _ _ _ H), allSubscriptions_app.
  simpl. apply app_nil_r.
Qed.

(** A mutation that turns the array into a sublist of itself does the same
    to the registry. *)
Lemma allSubscriptions_mutate_sublist t f m :
  (forall subs, f subs `sublist_of` subs) ->
  allSubscriptions (Map_mutate t f m) `sublist_of` allSubscriptions m.
Proof.
  intros Hf. destruct (Map_get t m) as [subs|] eqn:Hget.
  - destruct (Map_get_split _ _ _ Hget) as (pre & post & -> & _ & Hmut).
    rewrite Hmut, !allSubscriptions_app, !allSubscriptions_cons.
    apply sublist_app; [reflexivity|]. apply sublist_app; [apply Hf|reflexivity].
  - now rewrite Map_mutate_absent.
Qed.


Lemma allSubscriptions_mutate_symbols t f m :
  (forall subs, map symbol (f subs) = map symbol subs) ->
  map symbol (allSubscriptions (Map_mutate t f m)) = map symbol (allSubscriptions m).
Proof.
  intros Hf. destruct (Map_get t m) as [subs|] eqn:Hget.
  - destruct (Map_get_split _ _ _ Hget) as (pre & post & -> & _ & Hmut).
    rewrite Hmut, !allSubscriptions_app, !allSubscriptions_cons.
    rewrite !map_app. now rewrite Hf.
  - now rewrite Map_mutate_absent.
Qed.

Lemma alter_decrement_symbols k subs :
  map symbol (alter decrement k subs) = map symbol subs.
Proof.
  revert k. induction subs as [|sub subs IH]; intros [|k]; simpl; try reflexivity.
  f_equal. apply IH.
Qed.

Lemma allSubscriptions_push t x m subs :
  Map_get t m = Some subs ->
  allSubscriptions (Map_mutate t (fun subs => subs ++ [x]) m)
  ≡ₚ x :: allSubscriptions m.
Proof.
  intros Hget. destruct (Map_get_split _ _ _ Hget) as (pre & post & -> & _ & Hmut).
  rewrite Hmut, !allSubscriptions_app, !allSubscriptions_cons.
  rewrite <- (app_assoc subs [x]). simpl.
  rewrite (app_assoc (allSubscriptions pre) subs (x :: allSubscriptions post)).
  rewrite <- Permutation_middle. now rewrite <- app_assoc.
Qed.

Lemma Map_mutate_mutate t f g m :
  Map_mutate t f (Map_mutate t g m) = Map_mutate t (fun subs => f (g subs)) m.
Proof.
  induction m as [|[t' subs'] m IH]; simpl; [reflexivity|].
  destruct (String.eqb_spec t' t) as [->|Hne]; simpl.
  - now rewrite String.eqb_refl.
  - destruct (String.eqb_spec t' t); [congruence|]. now rewrite IH.
Qed.

Lemma Map_mutate_live t m : Map_mutate t (fun _ => liveArray t m) m = m.
Proof.
  unfold liveArray. destruct (Map_get t m) as [subs|] eqn:Hget.
  - destruct (Map_get_split _ _ _ Hget) as (pre & post & Hm & _ & Hmut).
    now rewrite Hmut.
  - now apply Map_mutate_absent.
Qed.

Lemma drop_after_delete {A} (l : list A) idx k :
  idx <= k -> drop (S k) (delete idx l) = drop (S (S k)) l.
Proof.
  intros Hle. apply list_eq. intros i.
  rewrite !lookup_drop, list_lookup_delete_ge by lia. f_equal.
Qed.

Lemma drop_after_alter {A} (f : A -> A) (l : list A) k :
  drop (S k) (alter f k l) = drop (S k) l.
Proof.
  apply list_eq. intros i. rewrite !lookup_drop.
  apply list_lookup_alter_ne. lia.
Qed.

Lemma drop_shift {A} (l1 l2 : list A) k j d :
  drop k l1 = drop j l2 -> drop (k + d) l1 = drop (j + d) l2.
Proof. intros H. now rewrite <- !drop_drop, H. Qed.

End MapFacts.

(** ** Scanning for a symbol or a handler *)

Section ScanFacts.

Implicit Types (m pre post : TopicMap) (t : string) (subs : list Subscription).

Lemma findSymbol_None s subs :
  findSymbol s subs = None <-> Forall (fun sub => symbol sub <> s) subs.
Proof. unfold findSymbol. apply list_find_None. Qed.

Lemma findHandler_None f subs :
  findHandler f subs = None <-> Forall (fun sub => handler sub <> f) subs.
Proof. unfold findHandler. apply list_find_None. Qed.

Lemma findHandler_Some f subs idx sub :
  findHandler f subs = Some (idx, sub) <->
  subs !! idx = Some sub /\ handler sub = f /\
  forall j y, subs !! j = Some y -> j < idx -> handler y <> f.
Proof.
  unfold findHandler. apply (list_find_Some (fun y => handler y = f)).
Qed.

Lemma not_carried_Forall s m :
  ~ carried s m <-> Forall (fun sub => symbol sub <> s) (allSubscriptions m).
Proof.
  unfold carried. rewrite Forall_forall. split.
  - intros H sub Hin Heq. apply H. now exists sub.
  - intros H (sub & Hin & Heq). exact (H sub Hin Heq).
Qed.

Lemma spliceSymbol_None s m : spliceSymbol s m = None <-> ~ carried s m.
Proof.
  rewrite not_carried_Forall.
  induction m as [|[t subs] m IH]; simpl.
  - split; [constructor|reflexivity].
  - rewrite allSubscriptions_cons, Forall_app, <- findSymbol_None.
    destruct (findSymbol s subs) as [[idx sub]|].
    + split; [discriminate|]. intros [[=] _].
    + destruct (spliceSymbol s m).
      * split; [discriminate|]. intros [_ H]. now apply IH in H.
      * split; [|reflexivity]. intros _. split; [reflexivity|]. now apply IH.
Qed.

Lemma spliceSymbol_Some s m m' :
  spliceSymbol s m = Some m' ->
  exists pre t subs post idx sub,
    m = pre ++ (t, subs) :: post /\ subs !! idx = Some sub /\ symbol sub = s /\
    m' = pre ++ (t, delete idx subs) :: post.
Proof.
  revert m'. induction m as [|[t subs] m IH]; simpl; intros m'; [discriminate|].
  destruct (findSymbol s subs) as [[idx sub]|] eqn:Hfind.
  - intros [= <-]. apply list_find_Some in Hfind as (Hidx & Hs & _).
    exists [], t, subs, m, idx, sub. now repeat split.
  - destruct (spliceSymbol s m) as [rest|]; [|discriminate].
    intros [= <-].
    destruct (IH rest eq_refl) as (pre & t' & subs' & post & idx & sub & -> & H1 & H2 & ->).
    exists ((t, subs) :: pre), t', subs', post, idx, sub. now repeat split.
Qed.

(** With distinct symbols, the scan finds the one subscription that carries
    the symbol, wherever it is. *)
Lemma spliceSymbol_distinct pre t subs post idx sub :
  symbolsDistinct (pre ++ (t, subs) :: post) ->
  subs !! idx = Some sub ->
  spliceSymbol (symbol sub) (pre ++ (t, subs) :: post)
  = Some (pre ++ (t, delete idx subs) :: post).
Proof.
  unfold symbolsDistinct. intros Hnd Hidx.
  induction pre as [|[t' subs'] pre IH]; cbn [app spliceSymbol] in *.
  - rewrite allSubscriptions_cons, map_app in Hnd.
    apply NoDup_app in Hnd as (Hnd & _ & _).
    assert (findSymbol (symbol sub) subs = Some (idx, sub)) as ->; [|reflexivity].
    apply list_find_Some. repeat split; [assumption|].
    intros j y Hj Hlt Heq.
    assert (j = idx); [|lia].
    apply (NoDup_lookup _ j idx (symbol sub) Hnd).
    + change (map symbol subs) with (symbol <$> subs).
      now rewrite list_lookup_fmap, Hj, <- Heq.
    + change (map symbol subs) with (symbol <$> subs).
      now rewrite list_lookup_fmap, Hidx.
  - rewrite allSubscriptions_cons, map_app in Hnd.
    apply NoDup_app in Hnd as (_ & Hsep & Hnd).
    assert (findSymbol (symbol sub) subs' = None) as ->.
    { apply findSymbol_None, Forall_forall. intros y Hy Heq.
      apply (Hsep (symbol y)).
      - apply list_elem_of_In, in_map, list_elem_of_In, Hy.
      - rewrite Heq. apply list_elem_of_In, in_map, list_elem_of_In.
        rewrite allSubscriptions_app, allSubscriptions_cons.
        apply elem_of_app. right. apply elem_of_app. left.
        eapply list_elem_of_lookup_2, Hidx. }
    now rewrite (IH Hnd).
Qed.

(** Once spliced out, a symbol that was carried once is carried no more. *)
Lemma spliced_not_carried pre t subs post idx sub :
  symbolsDistinct (pre ++ (t, subs) :: post) ->
  subs !! idx = Some sub ->
  ~ carried (symbol sub) (pre ++ (t, delete idx subs) :: post).
Proof.
  unfold symbolsDistinct. intros Hnd Hidx (y & Hy & Heq).
  rewrite allSubscriptions_app, allSubscriptions_cons, !map_app in Hnd.
  rewrite allSubscriptions_app, allSubscriptions_cons in Hy.
  rewrite <- (take_drop_middle _ _ _ Hidx) in Hnd.
  rewrite delete_take_drop in Hy.
  rewrite map_app in Hnd. simpl in Hnd.
  apply NoDup_app in Hnd as (_ & Hsep1 & Hnd).
  apply NoDup_app in Hnd as (Hnd & Hsep2 & _).
  apply NoDup_app in Hnd as (_ & Hsep3 & Hnd).
  apply NoDup_cons in Hnd as (Hnotin & _).
  assert (Hmid : symbol sub ∈ map symbol (take idx subs)
                              ++ map symbol (sub :: drop (S idx) subs)).
  { apply elem_of_app. right. simpl. left. }
  assert (Hin : forall l, y ∈ l -> symbol sub ∈ map symbol l).
  { intros l Hl. rewrite <- Heq. now apply list_elem_of_In, in_map, list_elem_of_In. }
  apply elem_of_app in Hy as [Hy|Hy].
  - apply (Hsep1 (symbol sub)); [now apply Hin|].
    apply elem_of_app. left. exact Hmid.
  - apply elem_of_app in Hy as [Hy|Hy].
    + apply elem_of_app in Hy as [Hy|Hy].
      * apply (Hsep3 (symbol sub)); [now apply Hin|left].
      * apply Hnotin. now apply Hin.
    + apply (Hsep2 (symbol sub)); [exact Hmid|now apply Hin].
Qed.

End ScanFacts.

(** ** The methods, one by one *)

Section Methods.

Context {World : Type}.
Variable invoke : FunctionId -> list JSValue -> World -> Completion unit * World.

Implicit Types (r : Realm World) (m : TopicMap) (t : string)
  (subs : list Subscription) (sub : Subscription) (args : list JSValue).

Lemma nonempty_length t : t <> EmptyString -> Nat.eqb (String.length t) 0 = false.
Proof. destruct t; [congruence|reflexivity]. Qed.

Lemma assertValidTopic_ok t r :
  t <> EmptyString -> _assertValidTopic (VString t) r = (Normal t, r).
Proof. intros H. unfold _assertValidTopic. now rewrite (nonempty_length _ H). Qed.

(** [unsubscribeSymbol] on a symbol. *)
Lemma unsubscribeSymbol_eq s r :
  unsubscribeSymbol (VSymbol s) r =
  match spliceSymbol s (topicToSubscriptionsMap r) with
  | Some m' => (Normal true, withMap m' r)
  | None => (Normal false, r)
  end.
Proof.
  unfold unsubscribeSymbol, bind, _assertSymbol, ret, getMap. simpl.
  destruct (spliceSymbol s (topicToSubscriptionsMap r)); reflexivity.
Qed.

(** [unsubscribeHandler] on a topic and a function. *)
Lemma unsubscribeHandler_eq t f r :
  t <> EmptyString ->
  unsubscribeHandler (VString t) (VFunction f) r =
  match Map_get t (topicToSubscriptionsMap r) with
  | None => (Normal false, r)
  | Some subs =>
      match findHandler f subs with
      | Some (idx, _) =>
          (Normal true,
           withMap (Map_mutate t (delete idx) (topicToSubscriptionsMap r)) r)
      | None => (Normal false, r)
      end
  end.
Proof.
  intros Ht.
  unfold unsubscribeHandler, _assertValidTopicAndHandler, bind.
  rewrite (assertValidTopic_ok _ _ Ht). unfold ret, getMap. simpl.
  unfold Map_has, liveArray.
  destruct (Map_get t (topicToSubscriptionsMap r)) as [subs|]; simpl; [|reflexivity].
  destruct (findHandler f subs) as [[idx y]|]; reflexivity.
Qed.

(** The calls of [unsubscribe] that throw: the ones with a wrong number of
    arguments or an argument of the wrong type.  They leave the realm as it
    was. *)
Lemma unsubscribe_throws args e r r' :
  unsubscribe args r = (Throw e, r') -> r' = r /\ exists msg, e = TypeError msg.
Proof.
  destruct args as [|a [|b [|c args]]]; simpl.
  - intros [= <- <-]. eauto.
  - destruct a; simpl; try (intros [= <- <-]; eauto).
    rewrite unsubscribeSymbol_eq.
    destruct (spliceSymbol s (topicToSubscriptionsMap r)); discriminate.
  - destruct a; simpl; try (intros [= <- <-]; eauto).
    destruct (string_dec s EmptyString) as [->|Hne].
    + intros [= <- <-]. eauto.
    + destruct b; try (unfold unsubscribeHandler, _assertValidTopicAndHandler, bind;
        rewrite (assertValidTopic_ok _ _ Hne); intros [= <- <-]; eauto).
      rewrite (unsubscribeHandler_eq _ _ _ Hne).
      destruct (Map_get s (topicToSubscriptionsMap r)) as [subs|]; [|discriminate].
      destruct (findHandler f subs) as [[idx y]|]; discriminate.
  - intros [= <- <-]. eauto.
Qed.

(** What a call of [unsubscribe] that returns does to the realm: nothing
    when it returns [false]; when it returns [true], one array of the map has
    lost one element, and nothing else has changed. *)
Lemma unsubscribe_returns args b r r' :
  unsubscribe args r = (Normal b, r') ->
  if b then
    exists pre t subs post idx sub,
      topicToSubscriptionsMap r = pre ++ (t, subs) :: post /\
      subs !! idx = Some sub /\
      r' = withMap (pre ++ (t, delete idx subs) :: post) r
  else r' = r.
Proof.
  destruct args as [|a [|b' [|c args]]]; simpl; try discriminate.
  - destruct a; simpl; try discriminate.
    rewrite unsubscribeSymbol_eq.
    destruct (spliceSymbol s (topicToSubscriptionsMap r)) as [m'|] eqn:Hs.
    + intros [= <- <-].
      apply spliceSymbol_Some in Hs
        as (pre & t & subs & post & idx & sub & Hm & Hidx & _ & ->).
      now exists pre, t, subs, post, idx, sub.
    + now intros [= <- <-].
  - destruct a; simpl; try discriminate.
    destruct (string_dec s EmptyString) as [->|Hne]; [discriminate|].
    destruct b'; try (unfold unsubscribeHandler, _assertValidTopicAndHandler, bind;
        rewrite (assertValidTopic_ok _ _ Hne); discriminate).
    rewrite (unsubscribeHandler_eq _ _ _ Hne).
    destruct (Map_get s (topicToSubscriptionsMap r)) as [subs|] eqn:Hget.
    + destruct (findHandler f subs) as [[idx y]|] eqn:Hfind.
      * intros [= <- <-].
        destruct (Map_get_split _ _ _ Hget) as (pre & post & Hm & _ & Hmut).
        apply findHandler_Some in Hfind as (Hidx & _).
        exists pre, s, subs, post, idx, y. now rewrite Hmut.
      * now intros [= <- <-].
    + now intros [= <- <-].
Qed.

(** *** [forEach] *)

(** A property of the realm that every call of the callback keeps is kept by
    the whole loop, however it ends. *)
Lemma forEach_preserves (P : Realm World -> Prop) t cb k n r :
  (forall k sub r,
      P r -> liveArray t (topicToSubscriptionsMap r) !! k = Some sub ->
      P (snd (cb k sub r))) ->
  P r -> P (snd (forEach t cb k n r)).
Proof.
  intros Hcb. revert k r. induction n as [|n IH]; intros k r HP; simpl; [exact HP|].
  destruct (liveArray t (topicToSubscriptionsMap r) !! k) as [sub|] eqn:Hk.
  - unfold bind. specialize (Hcb k sub r HP Hk).
    destruct (cb k sub r) as [[[]|e] r1]; simpl in *; auto.
  - auto.
Qed.

(** When every call of the callback returns, so does the loop. *)
Lemma forEach_returns (I : nat -> Realm World -> Prop) t cb k n r :
  (forall k sub r,
      I k r -> liveArray t (topicToSubscriptionsMap r) !! k = Some sub ->
      exists r1, cb k sub r = (Normal tt, r1) /\ I (S k) r1) ->
  (forall k r,
      I k r -> liveArray t (topicToSubscriptionsMap r) !! k = None -> I (S k) r) ->
  I k r ->
  exists r', forEach t cb k n r = (Normal tt, r') /\ I (k + n) r'.
Proof.
  intros Hcb Hskip. revert k r. induction n as [|n IH]; intros k r HI; simpl.
  - exists r. now rewrite Nat.add_0_r.
  - replace (k + S n) with (S k + n) by lia.
    destruct (liveArray t (topicToSubscriptionsMap r) !! k) as [sub|] eqn:Hk.
    + destruct (Hcb k sub r HI Hk) as (r1 & Hr1 & HI1).
      unfold bind. rewrite Hr1. now apply IH.
    + apply IH. now apply Hskip.
Qed.

(** Past the end of the array the loop does nothing. *)
Lemma forEach_beyond t cb n :
  forall k r,
    length (liveArray t (topicToSubscriptionsMap r)) <= k ->
    forEach t cb k n r = (Normal tt, r).
Proof.
  induction n as [|n IH]; intros k r Hk; simpl; [reflexivity|].
  rewrite lookup_ge_None_2 by exact Hk. apply IH. lia.
Qed.

(** *** [publish] *)

Lemma publishOne_eligible t args k sub r :
  eligible sub = true ->
  publishOne invoke t args k sub r =
  match invoke (handler sub) args (world r) with
  | (Normal _, w) =>
      (Normal tt,
       withMap (Map_mutate t (alter decrement k) (topicToSubscriptionsMap r))
               (recordCall (handler sub) args (Normal tt) w r))
  | (Throw e, w) => (Throw e, recordCall (handler sub) args (Throw e) w r)
  end.
Proof.
  unfold eligible, publishOne. intros ->. unfold bind, callHandler.
  destruct (invoke (handler sub) args (world r)) as [[[]|e] w]; reflexivity.
Qed.

Lemma publishOne_exhausted t args k sub r :
  t <> EmptyString ->
  eligible sub = false ->
  publishOne invoke t args k sub r =
  (Normal tt, snd (unsubscribeHandler (VString t) (VFunction (handler sub)) r)).
Proof.
  unfold eligible, publishOne. intros Ht ->. unfold bind.
  rewrite (unsubscribeHandler_eq _ _ _ Ht).
  destruct (Map_get t (topicToSubscriptionsMap r)) as [subs|]; [|reflexivity].
  destruct (findHandler (handler sub) subs) as [[idx y]|]; reflexivity.
Qed.

Lemma publish_eq t args r :
  t <> EmptyString ->
  publish invoke (VString t) args r =
  match Map_get t (topicToSubscriptionsMap r) with
  | None => (Normal false, r)
  | Some subs =>
      if Nat.eqb (length subs) 0 then (Normal false, r)
      else
        match forEach t (publishOne invoke t args) 0 (length subs) r with
        | (Normal _, r') => (Normal true, r')
        | (Throw e, r') => (Throw e, r')
        end
  end.
Proof.
  intros Ht. unfold publish, bind. rewrite (assertValidTopic_ok _ _ Ht).
  unfold getMap, ret.
  destruct (Map_get t (topicToSubscriptionsMap r)) as [subs|]; [|reflexivity].
  destruct (Nat.eqb (length subs) 0); [reflexivity|].
  destruct (forEach t (publishOne invoke t args) 0 (length subs) r) as [[[]|e] r'];
    reflexivity.
Qed.

(** A call of [publish] with an invalid topic throws and changes nothing. *)
Lemma publish_invalid topic args r :
  (forall t, topic = VString t -> t = EmptyString) ->
  exists msg, publish invoke topic args r = (Throw (TypeError msg), r).
Proof.
  intros H. unfold publish, bind, _assertValidTopic, throw.
  destruct topic; eauto.
  rewrite (H s eq_refl). simpl. eauto.
Qed.

(** *** Invariants of the registry *)

Lemma wellFormed_shrink r r' :
  symbolCount r <= symbolCount r' ->
  symbol <$> allSubscriptions (topicToSubscriptionsMap r')
    `sublist_of` symbol <$> allSubscriptions (topicToSubscriptionsMap r) ->
  wellFormed r -> wellFormed r'.
Proof.
  unfold wellFormed, symbolsDistinct, symbolsMinted. intros Hle Hsub [Hnd Hlt]. split.
  - eapply sublist_NoDup; eauto.
  - rewrite Forall_forall in *. intros x Hx.
    assert (Hx' : symbol x ∈ symbol <$> allSubscriptions (topicToSubscriptionsMap r)).
    { eapply elem_of_sublist; [|exact Hsub]. now apply list_elem_of_fmap_2. }
    apply list_elem_of_fmap in Hx' as (y & -> & Hy).
    specialize (Hlt y Hy). lia.
Qed.

Lemma symbols_delete_sublist t idx m :
  symbol <$> allSubscriptions (Map_mutate t (delete idx) m)
    `sublist_of` symbol <$> allSubscriptions m.
Proof.
  apply fmap_sublist, allSubscriptions_mutate_sublist.
  intros subs. apply sublist_delete.
Qed.

Lemma symbols_decrement t k m :
  symbol <$> allSubscriptions (Map_mutate t (alter decrement k) m)
  = symbol <$> allSubscriptions m.
Proof.
  apply allSubscriptions_mutate_symbols. intros subs. apply alter_decrement_symbols.
Qed.

Lemma unsubscribeHandler_wellFormed t f r :
  t <> EmptyString ->
  wellFormed r ->
  wellFormed (snd (unsubscribeHandler (VString t) (VFunction f) r)).
Proof.
  intros Ht Hwf. rewrite (unsubscribeHandler_eq _ _ _ Ht).
  destruct (Map_get t (topicToSubscriptionsMap r)) as [subs|]; [|exact Hwf].
  destruct (findHandler f subs) as [[idx y]|]; [|exact Hwf].
  simpl. eapply wellFormed_shrink; [| |exact Hwf]; simpl; [lia|].
  apply symbols_delete_sublist.
Qed.

Lemma publishOne_wellFormed t args k sub r :
  t <> EmptyString ->
  wellFormed r -> wellFormed (snd (publishOne invoke t args k sub r)).
Proof.
  intros Ht Hwf. destruct (eligible sub) eqn:Hel.
  - rewrite (publishOne_eligible _ _ _ _ _ Hel).
    destruct (invoke (handler sub) args (world r)) as [[[]|e] w]; simpl.
    + eapply wellFormed_shrink; [| |exact Hwf]; simpl; [lia|].
      now rewrite symbols_decrement.
    + exact Hwf.
  - rewrite (publishOne_exhausted _ _ _ _ _ Ht Hel). simpl.
    now apply unsubscribeHandler_wellFormed.
Qed.

Lemma publish_wellFormed topic args r :
  wellFormed r -> wellFormed (snd (publish invoke topic args r)).
Proof.
  intros Hwf.
  assert (Hinv : (forall t, topic = VString t -> t = EmptyString) ->
                 wellFormed (snd (publish invoke topic args r))).
  { intros H. destruct (publish_invalid topic args r H) as (msg & ->). exact Hwf. }
  destruct topic; try (apply Hinv; discriminate).
  destruct (string_dec s EmptyString) as [->|Hne].
  { apply Hinv. now intros t [= <-]. }
  rewrite (publish_eq _ _ _ Hne).
  destruct (Map_get s (topicToSubscriptionsMap r)) as [subs|]; [|exact Hwf].
  destruct (Nat.eqb (length subs) 0); [exact Hwf|].
  pose proof (forEach_preserves wellFormed s (publishOne invoke s args)
                0 (length subs) r) as H.
  destruct (forEach s (publishOne invoke s args) 0 (length subs) r) as [[[]|e] r'];
    simpl in *; apply H; auto using publishOne_wellFormed.
Qed.

Lemma unsubscribe_wellFormed args r :
  wellFormed r -> wellFormed (snd (unsubscribe args r)).
Proof.
  intros Hwf. destruct (unsubscribe args r) as [[b|e] r'] eqn:Hu; simpl.
  - apply unsubscribe_returns in Hu. destruct b; [|now subst].
    destruct Hu as (pre & t & subs & post & idx & sub & Hm & Hidx & ->).
    eapply wellFormed_shrink; [| |exact Hwf]; simpl; [lia|].
    rewrite Hm, !allSubscriptions_app, !allSubscriptions_cons.
    apply fmap_sublist, sublist_app; [reflexivity|].
    apply sublist_app; [apply sublist_delete|reflexivity].
  - apply unsubscribe_throws in Hu as [-> _]. exact Hwf.
Qed.

Lemma ensured_get t m : Map_get t (ensured t m) = Some (liveArray t m).
Proof.
  unfold ensured, Map_has, liveArray.
  destruct (Map_get t m) as [subs|] eqn:Hget; [exact Hget|apply Map_get_set].
Qed.

Lemma ensured_allSubscriptions t m :
  allSubscriptions (ensured t m) = allSubscriptions m.
Proof.
  unfold ensured, Map_has.
  destruct (Map_get t m) as [subs|] eqn:Hget; [reflexivity|].
  now apply allSubscriptions_set_empty.
Qed.

(** The three ways a call of [subscribe] can go. *)
Lemma subscribe_cases topic handler budget r :
  (isValidTopic topic && isFunction handler = false /\
   exists msg, subscribe topic handler budget r = (Throw (TypeError msg), r)) \/
  exists t f,
    topic = VString t /\ t <> EmptyString /\ handler = VFunction f /\
    ((isValidBudget budget = false /\
      exists msg,
        subscribe topic handler budget r =
        (Throw (TypeError msg),
         withMap (ensured t (topicToSubscriptionsMap r)) (snd (Symbol r)))) \/
     (exists x,
        defaultTo (VNumber Infinity) budget = VNumber x /\
        Number_lt x (Fin 1) = false /\
        subscribe topic handler budget r =
        (Normal (symbolCount r),
         withMap (Map_mutate t
                    (fun subs => subs ++ [mkSubscription (symbolCount r) x f])
                    (ensured t (topicToSubscriptionsMap r)))
                 (snd (Symbol r))))).
Proof.
  unfold subscribe, _assertValidTopicAndHandler, bind.
  destruct topic; try (left; split; [reflexivity|eexists; reflexivity]).
  destruct (string_dec s EmptyString) as [->|Hne];
    [left; split; [reflexivity|eexists; reflexivity]|].
  rewrite (assertValidTopic_ok _ _ Hne).
  destruct handler;
    try (left; split; [apply andb_false_r|eexists; reflexivity]).
  right. exists s, f. repeat split; [assumption|].
  unfold ret, getMap, Symbol, Subscription_new, ensured, isValidBudget. simpl.
  destruct (defaultTo (VNumber Infinity) budget) eqn:Hd;
    try (left; split; [reflexivity|];
         destruct (Map_has s (topicToSubscriptionsMap r)); eexists; reflexivity).
  destruct (Number_lt n (Fin 1)) eqn:Hlt.
  - left. split; [reflexivity|].
    destruct (Map_has s (topicToSubscriptionsMap r)); eexists; reflexivity.
  - right. exists n. split; [reflexivity|]. split; [exact Hlt|].
    destruct (Map_has s (topicToSubscriptionsMap r)); reflexivity.
Qed.

Lemma subscribe_wellFormed topic handler budget r :
  wellFormed r -> wellFormed (snd (subscribe topic handler budget r)).
Proof.
  intros Hwf.
  destruct (subscribe_cases topic handler budget r)
    as [(_ & msg & ->)|(t & f & -> & Ht & -> & [(_ & msg & ->)|(x & _ & _ & ->)])];
    simpl.
  - exact Hwf.
  - eapply wellFormed_shrink; [| |exact Hwf]; simpl; [lia|].
    now rewrite ensured_allSubscriptions.
  - destruct Hwf as [Hnd Hlt]. unfold wellFormed, symbolsDistinct, symbolsMinted in *.
    simpl.
    pose proof (allSubscriptions_push t (mkSubscription (symbolCount r) x f) _ _
                  (ensured_get t (topicToSubscriptionsMap r))) as Hperm.
    rewrite ensured_allSubscriptions in Hperm.
    split.
    + change (NoDup (symbol <$> allSubscriptions
               (Map_mutate t (fun subs => subs ++ [mkSubscription (symbolCount r) x f])
                  (ensured t (topicToSubscriptionsMap r))))).
      rewrite Hperm. simpl. apply NoDup_cons. split; [|exact Hnd].
      intros Hin. apply list_elem_of_fmap in Hin as (y & Hy & Hin).
      rewrite Forall_forall in Hlt. specialize (Hlt y Hin). lia.
    + rewrite Hperm. constructor; [simpl; lia|].
      eapply Forall_impl; [exact Hlt|]. simpl. intros; lia.
Qed.

Lemma reachable_wellFormed r : reachable invoke r -> wellFormed r.
Proof.
  induction 1.
  - split; constructor.
  - now apply subscribe_wellFormed.
  - now apply publish_wellFormed.
  - now apply unsubscribe_wellFormed.
  - eapply wellFormed_shrink; [| |eassumption]; simpl; [lia|reflexivity].
  - exact IHreachable.
Qed.

Lemma round64_small n : (Z.abs n <= 9007199254740992)%Z -> round64 n = n.
Proof.
  intros H. unfold round64. now rewrite (proj2 (Z.leb_le _ _) H).
Qed.










(** *** One pass of [publish] *)

Lemma liveArray_Some t m k sub :
  liveArray t m !! k = Some sub ->
  Map_get t m = Some (liveArray t m).
Proof.
  unfold liveArray. destruct (Map_get t m); [reflexivity|].
  rewrite lookup_nil. discriminate.
Qed.

(** The removal done by [publish] for the exhausted subscription at index
    [k]: the first subscription with the same handler goes, at an index that
    is at most [k]. *)
Lemma unsubscribeHandler_present t k sub r :
  t <> EmptyString ->
  liveArray t (topicToSubscriptionsMap r) !! k = Some sub ->
  exists idx y,
    findHandler (handler sub) (liveArray t (topicToSubscriptionsMap r)) = Some (idx, y) /\
    idx <= k /\
    unsubscribeHandler (VString t) (VFunction (handler sub)) r =
    (Normal true,
     withMap (Map_mutate t (delete idx) (topicToSubscriptionsMap r)) r).
Proof.
  intros Ht Hk. pose proof (liveArray_Some _ _ _ _ Hk) as Hget.
  destruct (findHandler (handler sub) (liveArray t (topicToSubscriptionsMap r)))
    as [[idx y]|] eqn:Hfind.
  - exists idx, y. split; [reflexivity|].
    pose proof Hfind as Hfind'.
    apply findHandler_Some in Hfind' as (_ & _ & Hleast). split.
    + destruct (le_lt_dec idx k) as [|Hlt]; [assumption|].
      now destruct (Hleast k sub Hk Hlt).
    + rewrite (unsubscribeHandler_eq _ _ _ Ht), Hget, Hfind. reflexivity.
  - apply findHandler_None in Hfind. rewrite Forall_forall in Hfind.
    destruct (Hfind sub); [|reflexivity]. eapply list_elem_of_lookup_2, Hk.
Qed.

(** What one call of the arrow function of [publish] does, on the element
    [sub] found at index [k]. *)
Lemma publishOne_cases t args k sub r :
  t <> EmptyString ->
  liveArray t (topicToSubscriptionsMap r) !! k = Some sub ->
  (eligible sub = true /\
   exists w,
     ((invoke (handler sub) args (world r) = (Normal tt, w) /\
       publishOne invoke t args k sub r =
       (Normal tt,
        withMap (Map_mutate t (alter decrement k) (topicToSubscriptionsMap r))
                (recordCall (handler sub) args (Normal tt) w r))) \/
      (exists e,
         invoke (handler sub) args (world r) = (Throw e, w) /\
         publishOne invoke t args k sub r =
         (Throw e, recordCall (handler sub) args (Throw e) w r)))) \/
  (eligible sub = false /\
   exists idx,
     idx <= k /\
     publishOne invoke t args k sub r =
     (Normal tt, withMap (Map_mutate t (delete idx) (topicToSubscriptionsMap r)) r)).
Proof.
  intros Ht Hk. destruct (eligible sub) eqn:Hel; [left|right]; split; try reflexivity.
  - rewrite (publishOne_eligible _ _ _ _ _ Hel).
    destruct (invoke (handler sub) args (world r)) as [[[]|e] w]; exists w; eauto.
  - rewrite (publishOne_exhausted _ _ _ _ _ Ht Hel).
    destruct (unsubscribeHandler_present _ _ _ _ Ht Hk) as (idx & y & _ & Hle & ->).
    now exists idx.
Qed.

Lemma untouchedFrom_decrement k subs0 t r r0 :
  topicToSubscriptionsMap r0 = topicToSubscriptionsMap r ->
  untouchedFrom k subs0 t r ->
  untouchedFrom (S k) subs0 t
    (withMap (Map_mutate t (alter decrement k) (topicToSubscriptionsMap r)) r0).
Proof.
  unfold untouchedFrom. simpl. intros _ H j sub Hj.
  destruct (Map_get t (topicToSubscriptionsMap r)) as [subs|] eqn:Hget.
  - rewrite (liveArray_mutate _ _ _ _ Hget).
    rewrite list_lookup_alter_ne by lia. intros Hl. apply (H j); [lia|].
    now rewrite (liveArray_get _ _ _ Hget).
  - rewrite (Map_mutate_absent _ _ _ Hget). apply H. lia.
Qed.

Lemma untouchedFrom_delete k idx subs0 t r :
  untouchedFrom k subs0 t r ->
  untouchedFrom (S k) subs0 t
    (withMap (Map_mutate t (delete idx) (topicToSubscriptionsMap r)) r).
Proof.
  unfold untouchedFrom. simpl. intros H j sub Hj.
  destruct (Map_get t (topicToSubscriptionsMap r)) as [subs|] eqn:Hget.
  - rewrite (liveArray_mutate _ _ _ _ Hget), list_lookup_delete.
    rewrite <- (liveArray_get _ _ _ Hget).
    destruct (decide (j < idx)); intros Hl; eapply H; try exact Hl; lia.
  - rewrite (Map_mutate_absent _ _ _ Hget). apply H. lia.
Qed.

Lemma untouchedFrom_S k subs0 t r :
  untouchedFrom k subs0 t r -> untouchedFrom (S k) subs0 t r.
Proof. unfold untouchedFrom. intros H j sub Hj. apply H. lia. Qed.

Lemma untouchedFrom_start t r :
  untouchedFrom 0 (liveArray t (topicToSubscriptionsMap r)) t r.
Proof. intros j sub _ Hl. eapply list_elem_of_lookup_2, Hl. Qed.

Lemma liveArray_delete_sublist t idx m :
  liveArray t (Map_mutate t (delete idx) m) `sublist_of` liveArray t m.
Proof.
  unfold liveArray. rewrite Map_get_mutate.
  destruct (Map_get t m) as [subs|]; simpl; [apply sublist_delete|reflexivity].
Qed.

(** C3. For a valid topic, [publish] returns [false] exactly when the topic
    has no array or an empty one.  When the array holds a subscription and no
    handler that is due throws, it returns [true]; in particular it returns
    [true], and invokes nothing, when every subscription present is
    exhausted. *)
Theorem publish_result t args r :
  t <> EmptyString ->
  let m := topicToSubscriptionsMap r in
  let out := publish invoke (VString t) args r in
  (fst out = Normal false <-> Map_get t m = None \/ Map_get t m = Some []) /\
  (forall subs,
      Map_get t m = Some subs -> subs <> [] ->
      (forall sub w, sub ∈ subs -> eligible sub = true ->
                     fst (invoke (handler sub) args w) = Normal tt) ->
      fst out = Normal true) /\
  (forall subs,
      Map_get t m = Some subs -> subs <> [] ->
      Forall (fun sub => eligible sub = false) subs ->
      fst out = Normal true /\ calls (snd out) = calls r).
Proof.
  intros Ht m out. subst m out. rewrite (publish_eq _ _ _ Ht).
  destruct (Map_get t (topicToSubscriptionsMap r)) as [subs|] eqn:Hget.
  2:{ split; [split; auto|]. split; intros subs [=]. }
  destruct subs as [|sub0 subs]; simpl Nat.eqb; cbv iota.
  { split; [split; auto|]. split; intros subs [= <-]; congruence. }
  set (subs0 := sub0 :: subs) in *.
  split; [|split].
  - split.
    + destruct (forEach t (publishOne invoke t args) 0 (length subs0) r)
        as [[[]|e] r']; discriminate.
    + intros [[=]|[=]].
  - intros ? [= <-] _ Hquiet.
    assert (Hloop : exists r',
               forEach t (publishOne invoke t args) 0 (length subs0) r = (Normal tt, r') /\
               untouchedFrom (0 + length subs0) subs0 t r').
    { apply (forEach_returns (fun k r' => untouchedFrom k subs0 t r')).
      - intros k sub r1 HI Hk.
        destruct (publishOne_cases t args k sub r1 Ht Hk)
          as [(Hel & w & [(_ & ->)|(e & Hinv & _)])|(Hel & idx & _ & ->)].
        + eexists; split; [reflexivity|]. now apply untouchedFrom_decrement.
        + specialize (Hquiet sub (world r1) (HI k sub (le_n k) Hk) Hel).
          rewrite Hinv in Hquiet. discriminate.
        + eexists; split; [reflexivity|]. now apply untouchedFrom_delete.
      - intros k r1 HI _. now apply untouchedFrom_S.
      - rewrite <- (liveArray_get _ _ _ Hget). apply untouchedFrom_start. }
    destruct Hloop as (r' & -> & _). reflexivity.
  - intros ? [= <-] _ Hall.
    assert (Hloop : exists r',
               forEach t (publishOne invoke t args) 0 (length subs0) r = (Normal tt, r') /\
               (Forall (fun sub => eligible sub = false)
                       (liveArray t (topicToSubscriptionsMap r')) /\
                calls r' = calls r)).
    { apply (forEach_returns
               (fun (_ : nat) r' =>
                  Forall (fun sub => eligible sub = false)
                         (liveArray t (topicToSubscriptionsMap r')) /\
                  calls r' = calls r)).
      - intros k sub r1 [Hex Hc] Hk.
        destruct (publishOne_cases t args k sub r1 Ht Hk)
          as [(Hel & _)|(Hel & idx & _ & ->)].
        + rewrite Forall_forall in Hex.
          rewrite (Hex sub) in Hel; [discriminate|].
          eapply list_elem_of_lookup_2, Hk.
        + eexists; split; [reflexivity|]. split; [|exact Hc]. simpl.
          rewrite Forall_forall in *. intros x Hx. apply Hex.
          eapply elem_of_sublist; [exact Hx|apply liveArray_delete_sublist].
      - auto.
      - split; [|reflexivity]. now rewrite (liveArray_get _ _ _ Hget). }
    destruct Hloop as (r' & -> & _ & Hcalls). split; [reflexivity|exact Hcalls].
Qed.

(** The trace of a pass, from any index on.  While the callback returns,
    the calls recorded have returned; a call that throws is the last one
    recorded, and its subscription stays in the array as it was. *)
Lemma publish_pass t args subs0 k n r c r' :
  t <> EmptyString ->
  untouchedFrom k subs0 t r ->
  forEach t (publishOne invoke t args) k n r = (c, r') ->
  exists later,
    calls r' = calls r ++ later /\
    match c with
    | Normal _ => Forall returned later
    | Throw e =>
        exists earlier j sub w,
          later = earlier ++ [(handler sub, args, Throw e)] /\
          Forall returned earlier /\
          sub ∈ subs0 /\ eligible sub = true /\
          liveArray t (topicToSubscriptionsMap r') !! j = Some sub /\
          invoke (handler sub) args w = (Throw e, world r')
    end.
Proof.
  intros Ht. revert k r. induction n as [|n IH]; intros k r Hun; simpl.
  - intros [= <- <-]. exists []. split; [now rewrite app_nil_r|constructor].
  - destruct (liveArray t (topicToSubscriptionsMap r) !! k) as [sub|] eqn:Hk.
    2:{ apply IH. now apply untouchedFrom_S. }
    unfold bind.
    destruct (publishOne_cases t args k sub r Ht Hk)
      as [(Hel & w & [(Hinv & ->)|(e & Hinv & ->)])|(Hel & idx & _ & ->)].
    + intros Hrest. apply IH in Hrest as (later & Hcalls & Hc).
      2:{ now apply untouchedFrom_decrement. }
      exists ((handler sub, args, Normal tt) :: later). split.
      { rewrite Hcalls. simpl. now rewrite <- app_assoc. }
      destruct c as [u|e].
      * constructor; [reflexivity|exact Hc].
      * destruct Hc as (earlier & j & sub' & w' & -> & Hret & Hc).
        exists ((handler sub, args, Normal tt) :: earlier), j, sub', w'.
        split; [reflexivity|]. split; [|exact Hc].
        constructor; [reflexivity|exact Hret].
    + intros [= <- <-]. exists [(handler sub, args, Throw e)]. split; [reflexivity|].
      exists [], k, sub, (world r). repeat split; auto.
      apply (Hun k sub (le_n k) Hk).
    + intros Hrest. apply IH in Hrest as (later & Hcalls & Hc).
      2:{ now apply untouchedFrom_delete. }
      exists later. split; [exact Hcalls|exact Hc].
Qed.

(** The place of the subscription whose handler throws.  [rm] entries have
    been removed so far: the array is that much shorter than [subs0], and
    from index [k] on it is [subs0] from [k + rm] on. *)
Lemma pass_throw_position t args subs0 n :
  t <> EmptyString ->
  forall k rm r e r',
    length (liveArray t (topicToSubscriptionsMap r)) + rm = length subs0 ->
    drop k (liveArray t (topicToSubscriptionsMap r)) = drop (k + rm) subs0 ->
    forEach t (publishOne invoke t args) k n r = (Throw e, r') ->
    exists mid extra sub,
      calls r' = calls r ++ mid ++ [(handler sub, args, Throw e)] /\
      Forall returned mid /\
      length (liveArray t (topicToSubscriptionsMap r')) + (rm + extra)
      = length subs0 /\
      liveArray t (topicToSubscriptionsMap r') !! (k + length mid + extra)
      = Some sub /\
      eligible sub = true /\
      drop (k + length mid + extra) (liveArray t (topicToSubscriptionsMap r'))
      = drop (k + length mid + extra + (rm + extra)) subs0.
Proof.
  intros Ht. induction n as [|n IH]; intros k rm r e r' Hlen Hd; simpl.
  - discriminate.
  - destruct (liveArray t (topicToSubscriptionsMap r) !! k) as [sub|] eqn:Hk.
    2:{ rewrite forEach_beyond; [discriminate|].
        apply lookup_ge_None in Hk. lia. }
    pose proof (liveArray_Some _ _ _ _ Hk) as Hget.
    pose proof (lookup_lt_Some _ _ _ Hk) as Hlt.
    unfold bind.
    destruct (publishOne_cases t args k sub r Ht Hk)
      as [(Hel & w & [(_ & ->)|(e1 & _ & ->)])|(Hel & idx & Hidx & ->)].
    + intros Hrest.
      apply (IH (S k) rm) in Hrest
        as (mid & extra & x & Hcalls & Hret & Hlen' & Hx & Helx & Hdx).
      * exists ((handler sub, args, Normal tt) :: mid), extra, x.
        simpl length. replace (k + S (length mid) + extra)
          with (S k + length mid + extra) by lia.
        split; [rewrite Hcalls; simpl; now rewrite <- app_assoc|].
        split; [constructor; [reflexivity|exact Hret]|].
        repeat split; assumption.
      * simpl. rewrite (liveArray_mutate _ _ _ _ Hget), length_alter. exact Hlen.
      * simpl. rewrite (liveArray_mutate _ _ _ _ Hget), drop_after_alter.
        etransitivity; [|etransitivity; [exact (drop_shift _ _ _ _ 1 Hd)|]];
          f_equal; lia.
    + intros [= <- <-]. exists [], 0, sub. simpl.
      rewrite !Nat.add_0_r. repeat split; auto.
    + intros Hrest.
      apply (IH (S k) (S rm)) in Hrest
        as (mid & extra & x & Hcalls & Hret & Hlen' & Hx & Helx & Hdx).
      * exists mid, (S extra), x.
        replace (k + length mid + S extra) with (S k + length mid + extra) by lia.
        replace (rm + S extra) with (S rm + extra) by lia.
        repeat split; assumption.
      * simpl. rewrite (liveArray_mutate _ _ _ _ Hget).
        rewrite length_delete by (apply lookup_lt_is_Some; lia). lia.
      * simpl. rewrite (liveArray_mutate _ _ _ _ Hget).
        rewrite drop_after_delete by exact Hidx.
        etransitivity; [|etransitivity; [exact (drop_shift _ _ _ _ 2 Hd)|]];
          f_equal; lia.
Qed.

(** *** A pass in which nothing is removed *)

Lemma alter_decrement_next k subs x :
  subs !! k = Some x ->
  alter decrement k ((decrement <$> take k subs) ++ drop k subs)
  = (decrement <$> take (S k) subs) ++ drop (S k) subs.
Proof.
  intros Hk. pose proof (lookup_lt_Some _ _ _ Hk) as Hlt.
  rewrite (take_S_r _ _ _ Hk), (drop_S _ _ _ Hk), fmap_app. simpl.
  rewrite <- app_assoc. simpl.
  replace k with (length (decrement <$> take k subs) + 0) at 1.
  - now rewrite alter_app_r.
  - rewrite length_fmap, length_take_le; lia.
Qed.

Lemma lookup_decremented_prefix k subs :
  ((decrement <$> take k subs) ++ drop k subs) !! k = subs !! k.
Proof.
  destruct (decide (k < length subs)) as [Hlt|Hge].
  - rewrite lookup_app_r; rewrite length_fmap, length_take_le; try lia.
    rewrite Nat.sub_diag, lookup_drop. f_equal. lia.
  - rewrite drop_ge, take_ge, app_nil_r by lia.
    rewrite !lookup_ge_None_2; [reflexivity|lia|rewrite length_fmap; lia].
Qed.

(** From index [k] on, when the subscriptions still to visit are all
    eligible and their handlers return: each is invoked once, in the order
    of the array, and its budget goes down by one. *)
Lemma pass_all_eligible t args subs :
  t <> EmptyString ->
  Forall (fun sub => eligible sub = true) subs ->
  (forall sub w, sub ∈ subs -> fst (invoke (handler sub) args w) = Normal tt) ->
  forall n k r,
    k + n = length subs ->
    liveArray t (topicToSubscriptionsMap r) = (decrement <$> take k subs) ++ drop k subs ->
    exists w',
      forEach t (publishOne invoke t args) k n r =
      (Normal tt,
       {| topicToSubscriptionsMap :=
            Map_mutate t (fun _ => decrement <$> subs) (topicToSubscriptionsMap r);
          symbolCount := symbolCount r;
          world := w';
          calls := calls r ++ invocations args (drop k subs) |}).
Proof.
  intros Ht Hel Hquiet. induction n as [|n IH]; intros k r Hlen Hlive; simpl.
  - exists (world r). unfold ret. f_equal.
    rewrite drop_ge by lia. simpl. rewrite app_nil_r.
    rewrite drop_ge, take_ge, app_nil_r in Hlive by lia.
    rewrite <- Hlive, Map_mutate_live. now destruct r.
  - destruct (subs !! k) as [x|] eqn:Hk.
    2:{ apply lookup_ge_None in Hk. lia. }
    assert (Hlk : liveArray t (topicToSubscriptionsMap r) !! k = Some x).
    { now rewrite Hlive, lookup_decremented_prefix. }
    rewrite Hlk. unfold bind.
    pose proof (list_elem_of_lookup_2 _ _ _ Hk) as Hin.
    rewrite Forall_forall in Hel.
    rewrite (publishOne_eligible _ _ _ _ _ (Hel x Hin)).
    specialize (Hquiet x (world r) Hin).
    destruct (invoke (handler x) args (world r)) as [[[]|e] w]; [|discriminate].
    destruct (IH (S k)
                (withMap (Map_mutate t (alter decrement k) (topicToSubscriptionsMap r))
                   (recordCall (handler x) args (Normal tt) w r)))
      as (w' & ->); [lia| |].
    + simpl. rewrite (liveArray_mutate _ _ _ _ (liveArray_Some _ _ _ _ Hlk)).
      rewrite Hlive. apply (alter_decrement_next _ _ _ Hk).
    + exists w'. simpl. rewrite Map_mutate_mutate.
      rewrite (drop_S _ _ _ Hk). simpl. now rewrite <- app_assoc.
Qed.

(** When every subscription of the topic's array is eligible and the
    handlers return, a call of [publish] invokes each handler once, in
    registration order and with the arguments published, takes one off each
    budget, and returns [true]. *)
Lemma publish_all_eligible t args subs r :
  t <> EmptyString ->
  Map_get t (topicToSubscriptionsMap r) = Some subs ->
  subs <> [] ->
  Forall (fun sub => eligible sub = true) subs ->
  (forall sub w, sub ∈ subs -> fst (invoke (handler sub) args w) = Normal tt) ->
  exists w',
    publish invoke (VString t) args r =
    (Normal true,
     {| topicToSubscriptionsMap :=
          Map_mutate t (fun _ => decrement <$> subs) (topicToSubscriptionsMap r);
        symbolCount := symbolCount r;
        world := w';
        calls := calls r ++ invocations args subs |}).
Proof.
  intros Ht Hget Hne Hel Hquiet. rewrite (publish_eq _ _ _ Ht), Hget.
  destruct subs as [|sub0 subs]; [congruence|]. simpl Nat.eqb. cbv iota.
  destruct (pass_all_eligible t args (sub0 :: subs) Ht Hel Hquiet
              (length (sub0 :: subs)) 0 r) as (w' & ->); [reflexivity| |].
  - now rewrite (liveArray_get _ _ _ Hget).
  - now exists w'.
Qed.

(** A subscription that is alone in its array with budget [0] is removed,
    without firing, by the next call of [publish]. *)
Lemma lone_subscription_pruned t args s f r :
  t <> EmptyString ->
  Map_get t (topicToSubscriptionsMap r) = Some [mkSubscription s (Fin 0) f] ->
  publish invoke (VString t) args r =
  (Normal true, withMap (Map_mutate t (fun _ => []) (topicToSubscriptionsMap r)) r).
Proof.
  intros Ht Hget. rewrite (publish_eq _ _ _ Ht), Hget. simpl.
  rewrite (liveArray_get _ _ _ Hget). simpl. unfold bind.
  rewrite publishOne_exhausted by (exact Ht || reflexivity).
  rewrite (unsubscribeHandler_eq _ _ _ Ht), Hget. unfold findHandler. simpl.
  rewrite decide_True by reflexivity. simpl. unfold ret. f_equal. f_equal.
  destruct (Map_get_split _ _ _ Hget) as (pre & post & _ & _ & Hmut).
  now rewrite !Hmut.
Qed.

(** A subscription that is alone in its array, with budget [N] and a
    handler that returns: [N] calls of [publish] invoke the handler [N]
    times and leave the subscription in the array with budget [0]; the call
    after them returns [true], invokes nothing and empties the array. *)
Lemma lone_subscription_lifetime t args s f (N : nat) r :
  t <> EmptyString ->
  (Z.of_nat N <= 9007199254740992)%Z ->
  Map_get t (topicToSubscriptionsMap r)
  = Some [mkSubscription s (Fin (Z.of_nat N)) f] ->
  (forall w, fst (invoke f args w) = Normal tt) ->
  let r' := publishTimes invoke N (VString t) args r in
  Map_get t (topicToSubscriptionsMap r') = Some [mkSubscription s (Fin 0) f] /\
  calls r' = calls r ++ repeat (f, args, Normal tt) N /\
  publish invoke (VString t) args r' =
  (Normal true, withMap (Map_mutate t (fun _ => []) (topicToSubscriptionsMap r')) r').
Proof.
  intros Ht Hbound Hget Hquiet. revert r Hbound Hget.
  induction N as [|N IH]; intros r Hbound Hget.
  - simpl. split; [exact Hget|]. split; [now rewrite app_nil_r|].
    exact (lone_subscription_pruned t args s f r Ht Hget).
  - assert (Hdec : decrement (mkSubscription s (Fin (Z.of_nat (S N))) f)
                   = mkSubscription s (Fin (Z.of_nat N)) f).
    { unfold decrement, Number_pred. cbn [symbol invocationsLeft handler].
      rewrite round64_small by lia. do 2 f_equal. lia. }
    cbn [publishTimes].
    destruct (publish_all_eligible t args _ r Ht Hget) as (w' & ->).
    + discriminate.
    + constructor; [|constructor]. unfold eligible, Number_gt.
      cbn [invocationsLeft Number_lt]. apply Z.ltb_lt. lia.
    + intros sub w Hin. apply list_elem_of_singleton in Hin as ->. apply Hquiet.
    + cbn [snd].
      match goal with |- context [publishTimes invoke N _ _ ?r1] =>
        destruct (IH r1) as (H1 & H2 & H3) end.
      * lia.
      * cbn [topicToSubscriptionsMap]. rewrite Map_get_mutate, Hget.
        cbn [fmap option_fmap option_map list_fmap]. now rewrite Hdec.
      * split; [exact H1|]. split; [|exact H3].
        rewrite H2. cbn [calls invocations map handler repeat].
        now rewrite <- app_assoc.
Qed.

(** *** Invalid arguments *)

Lemma liveArray_ensured t t' m : liveArray t' (ensured t m) = liveArray t' m.
Proof.
  unfold ensured, Map_has. destruct (Map_get t m) as [subs|] eqn:Hget; [reflexivity|].
  rewrite (Map_set_absent _ _ _ Hget). unfold liveArray.
  destruct (Map_get t' m) as [subs'|] eqn:Hget'.
  - destruct (Map_get_split _ _ _ Hget') as (pre & post & -> & Hpre & _).
    rewrite <- app_assoc. rewrite (Map_get_app_None _ _ _ Hpre). simpl.
    now rewrite String.eqb_refl.
  - rewrite (Map_get_app_None _ _ _ Hget'). simpl.
    destruct (String.eqb t t'); reflexivity.
Qed.

(** A call of [subscribe] with an invalid topic or handler throws and leaves
    the realm as it was. *)
Lemma subscribe_invalid_topic_or_handler topic fn budget r :
  isValidTopic topic && isFunction fn = false ->
  exists msg, subscribe topic fn budget r = (Throw (TypeError msg), r).
Proof.
  intros Hbad.
  destruct (subscribe_cases topic fn budget r)
    as [(_ & H)|(t & f & -> & Ht & -> & _)]; [exact H|].
  simpl in Hbad. rewrite (nonempty_length _ Ht) in Hbad. discriminate.
Qed.

(** A call of [subscribe] with a valid topic and handler and an invalid
    budget throws; every array is as it was, and so are the world and the
    trace. *)
Lemma subscribe_invalid_budget topic fn budget r :
  isValidTopic topic = true -> isFunction fn = true ->
  isValidBudget budget = false ->
  exists msg r',
    subscribe topic fn budget r = (Throw (TypeError msg), r') /\
    (forall t', liveArray t' (topicToSubscriptionsMap r')
                = liveArray t' (topicToSubscriptionsMap r)) /\
    world r' = world r /\ calls r' = calls r.
Proof.
  intros Htopic Hfn Hbad.
  destruct (subscribe_cases topic fn budget r)
    as [(H & _)|(t & f & -> & Ht & -> & [(_ & msg & H)|(x & Hx & Hlt & _)])].
  - rewrite Htopic, Hfn in H. discriminate.
  - eexists msg, _. split; [exact H|]. simpl.
    split; [|split; reflexivity]. intros t'. apply liveArray_ensured.
  - unfold isValidBudget in Hbad. rewrite Hx, Hlt in Hbad. discriminate.
Qed.

(** A call of [unsubscribe] with a number of arguments other than one or
    two, with one argument that is not a symbol, or with two arguments that
    are not a valid topic and a function, throws and leaves the realm as it
    was. *)
Lemma unsubscribe_invalid args r :
  match args with
  | [a] => isSymbol a = false
  | [a; b] => isValidTopic a && isFunction b = false
  | _ => True
  end ->
  exists msg, unsubscribe args r = (Throw (TypeError msg), r).
Proof.
  destruct args as [|a [|b [|c args]]]; simpl;
    try (intros _; eexists; reflexivity).
  - destruct a; try discriminate; intros _; eexists; reflexivity.
  - unfold unsubscribeHandler, _assertValidTopicAndHandler, bind.
    destruct a; try (intros _; eexists; reflexivity).
    destruct (string_dec s EmptyString) as [->|Hne];
      [intros _; eexists; reflexivity|].
    rewrite (assertValidTopic_ok _ _ Hne). simpl.
    rewrite (nonempty_length _ Hne). simpl.
    destruct b; try discriminate; intros _; eexists; reflexivity.
Qed.

(** *** Unsubscribing *)

(** The handle returned by [subscribe] is carried by the subscription it has
    just put at the end of the topic's array. *)
Lemma subscribe_handle_carried topic fn budget r s r1 :
  subscribe topic fn budget r = (Normal s, r1) ->
  exists pre t subs post sub,
    topic = VString t /\
    topicToSubscriptionsMap r1 = pre ++ (t, subs ++ [sub]) :: post /\
    subs = liveArray t (topicToSubscriptionsMap r) /\
    symbol sub = s /\ fn = VFunction (handler sub).
Proof.
  destruct (subscribe_cases topic fn budget r)
    as [(_ & msg & ->)|(t & f & -> & Ht & -> & [(_ & msg & ->)|(x & _ & _ & ->)])];
    try discriminate.
  intros [= <- <-]. simpl.
  destruct (Map_get_split _ _ _ (ensured_get t (topicToSubscriptionsMap r)))
    as (pre & post & _ & _ & Hmut).
  exists pre, t, (liveArray t (topicToSubscriptionsMap r)), post,
    (mkSubscription (symbolCount r) x f).
  rewrite Hmut. repeat split.
Qed.

(** C6. In a reachable registry, the handle that [subscribe] returns is
    carried by the new subscription; unsubscribing by the handle of a
    subscription that is present removes that subscription, and no other,
    and returns [true]; unsubscribing by the same handle again returns
    [false], and so does unsubscribing by a handle that no subscription
    carries. *)
Theorem unsubscribe_by_handle r :
  reachable invoke r ->
  (forall topic handler budget s r1,
      subscribe topic handler budget r = (Normal s, r1) ->
      carried s (topicToSubscriptionsMap r1)) /\
  (forall pre t subs post idx sub,
      topicToSubscriptionsMap r = pre ++ (t, subs) :: post ->
      subs !! idx = Some sub ->
      let r' := withMap (pre ++ (t, delete idx subs) :: post) r in
      unsubscribe [VSymbol (symbol sub)] r = (Normal true, r') /\
      unsubscribe [VSymbol (symbol sub)] r' = (Normal false, r')) /\
  (forall s,
      ~ carried s (topicToSubscriptionsMap r) ->
      unsubscribe [VSymbol s] r = (Normal false, r)).
Proof.
  intros Hreach. apply reachable_wellFormed in Hreach as [Hnd _].
  split; [|split].
  - intros topic handler budget s r1 Hsub.
    apply subscribe_handle_carried in Hsub
      as (pre & t & subs & post & sub & _ & Hm & _ & Hs & _).
    exists sub. split; [|exact Hs]. rewrite Hm.
    rewrite allSubscriptions_app, allSubscriptions_cons.
    apply elem_of_app. right. apply elem_of_app. left.
    apply elem_of_app. right. left.
  - intros pre t subs post idx sub Hm Hidx r'. subst r'. simpl.
    rewrite !unsubscribeSymbol_eq. simpl. rewrite Hm in *.
    rewrite (spliceSymbol_distinct _ _ _ _ _ _ Hnd Hidx). split; [reflexivity|].
    pose proof (spliced_not_carried _ _ _ _ _ _ Hnd Hidx) as Hgone.
    apply spliceSymbol_None in Hgone. now rewrite Hgone.
  - intros s Hs. simpl. rewrite unsubscribeSymbol_eq.
    apply spliceSymbol_None in Hs. now rewrite Hs.
Qed.

(** C10. One call of [unsubscribe], by handle or by topic and handler,
    removes at most one subscription.  When it returns [true], one array has
    lost one element: the topics before and after it in the map, and the
    elements before and after it in the array, are as they were and in the
    same order.  When it returns [false], or throws, the realm is as it
    was. *)
Theorem unsubscribe_frame args r :
  match unsubscribe args r with
  | (Normal true, r') =>
      exists pre t before sub after post,
        topicToSubscriptionsMap r = pre ++ (t, before ++ sub :: after) :: post /\
        r' = withMap (pre ++ (t, before ++ after) :: post) r
  | (Normal false, r') => r' = r
  | (Throw _, r') => r' = r
  end.
Proof.
  destruct (unsubscribe args r) as [[[|]|e] r'] eqn:Hu.
  - apply unsubscribe_returns in Hu
      as (pre & t & subs & post & idx & sub & Hm & Hidx & ->).
    exists pre, t, (take idx subs), sub, (drop (S idx) subs), post.
    rewrite (take_drop_middle _ _ _ Hidx), <- delete_take_drop. now split.
  - now apply unsubscribe_returns in Hu.
  - now apply unsubscribe_throws in Hu as [-> _].
Qed.

(** Unsubscribing by topic and handler: the first subscription of the
    topic's array with that handler goes, the ones after it stay, duplicates
    included. *)
Lemma unsubscribe_by_handler_first t f r before sub after :
  t <> EmptyString ->
  Map_get t (topicToSubscriptionsMap r) = Some (before ++ sub :: after) ->
  Forall (fun y => handler y <> f) before ->
  handler sub = f ->
  unsubscribe [VString t; VFunction f] r =
  (Normal true,
   withMap (Map_mutate t (fun _ => before ++ after) (topicToSubscriptionsMap r)) r).
Proof.
  intros Ht Hget Hbefore Hsub. simpl.
  rewrite (unsubscribeHandler_eq _ _ _ Ht), Hget.
  assert (findHandler f (before ++ sub :: after) = Some (length before, sub)) as ->.
  { apply findHandler_Some. split; [|split; [exact Hsub|]].
    - now rewrite list_lookup_middle.
    - intros j y Hj Hlt. rewrite lookup_app_l in Hj by exact Hlt.
      rewrite Forall_forall in Hbefore. apply Hbefore.
      eapply list_elem_of_lookup_2, Hj. }
  f_equal. f_equal.
  destruct (Map_get_split _ _ _ Hget) as (pre & post & _ & _ & Hmut).
  now rewrite !Hmut, delete_middle.
Qed.

(** Unsubscribing by topic and handler returns [false], and changes nothing,
    when the topic has no array or no subscription of the array has the
    handler. *)
Lemma unsubscribe_by_handler_none t f r :
  t <> EmptyString ->
  Forall (fun y => handler y <> f) (liveArray t (topicToSubscriptionsMap r)) ->
  unsubscribe [VString t; VFunction f] r = (Normal false, r).
Proof.
  intros Ht Hnone. simpl. rewrite (unsubscribeHandler_eq _ _ _ Ht).
  unfold liveArray in Hnone.
  destruct (Map_get t (topicToSubscriptionsMap r)) as [subs|]; [|reflexivity].
  apply findHandler_None in Hnone. now rewrite Hnone.
Qed.

(** *** Handlers that do not use the registry *)

Lemma Map_mutate_ext t f g m :
  (forall subs, Map_get t m = Some subs -> f subs = g subs) ->
  Map_mutate t f m = Map_mutate t g m.
Proof.
  intros H. destruct (Map_get t m) as [subs|] eqn:Hget.
  - destruct (Map_get_split _ _ _ Hget) as (pre & post & _ & _ & Hmut).
    now rewrite !Hmut, (H subs eq_refl).
  - now rewrite !Map_mutate_absent.
Qed.

Lemma liveArray_distinct t m :
  symbolsDistinct m -> NoDup (symbol <$> liveArray t m).
Proof.
  unfold symbolsDistinct, liveArray. intros Hnd.
  destruct (Map_get t m) as [subs|] eqn:Hget; [|constructor].
  destruct (Map_get_split _ _ _ Hget) as (pre & post & -> & _).
  rewrite allSubscriptions_app, allSubscriptions_cons, !map_app in Hnd.
  apply NoDup_app in Hnd as (_ & _ & Hnd).
  now apply NoDup_app in Hnd as (Hnd & _).
Qed.

(** The object that carries the symbol of the subscription at index [k] is
    that subscription, when no two subscriptions share a symbol. *)
Lemma decrementObject_alter subs k sub :
  NoDup (symbol <$> subs) ->
  subs !! k = Some sub ->
  decrementObject (symbol sub) subs = alter decrement k subs.
Proof.
  intros Hnd Hk. apply list_eq. intros i. unfold decrementObject.
  change (map ?f subs) with (f <$> subs).
  rewrite list_lookup_fmap, list_lookup_alter.
  destruct (decide (k = i)) as [<-|Hne].
  - rewrite Hk. simpl. now rewrite Nat.eqb_refl.
  - destruct (subs !! i) as [y|] eqn:Hi; [|reflexivity]. simpl.
    destruct (Nat.eqb_spec (symbol y) (symbol sub)) as [Heq|]; [|reflexivity].
    destruct Hne. apply (NoDup_lookup _ k i (symbol sub) Hnd).
    + now rewrite list_lookup_fmap, Hk.
    + rewrite list_lookup_fmap, Hi. simpl. now rewrite Heq.
Qed.

Lemma publishOneRe_aloof t args k sub r :
  symbolsDistinct (topicToSubscriptionsMap r) ->
  liveArray t (topicToSubscriptionsMap r) !! k = Some sub ->
  publishOneRe (aloof invoke) t args k sub r = publishOne invoke t args k sub r.
Proof.
  intros Hnd Hk. unfold publishOneRe, publishOne.
  destruct (Number_gt (invocationsLeft sub) (Fin 0)); [|reflexivity].
  unfold bind, callHandlerRe, callHandler, aloof.
  destruct (invoke (handler sub) args (world r)) as [[[]|e] w]; [|reflexivity].
  unfold modifyMap, recordCall, withWorld, withMap. simpl. do 2 f_equal.
  apply Map_mutate_ext. intros subs Hget.
  rewrite (liveArray_get _ _ _ Hget) in Hk.
  apply decrementObject_alter; [|exact Hk].
  rewrite <- (liveArray_get _ _ _ Hget). now apply liveArray_distinct.
Qed.

Lemma forEach_aloof t args n :
  t <> EmptyString ->
  forall k r,
    wellFormed r ->
    forEach t (publishOneRe (aloof invoke) t args) k n r
    = forEach t (publishOne invoke t args) k n r.
Proof.
  intros Ht. induction n as [|n IH]; intros k r Hwf; simpl; [reflexivity|].
  destruct (liveArray t (topicToSubscriptionsMap r) !! k) as [sub|] eqn:Hk;
    [|now apply IH].
  unfold bind. rewrite (publishOneRe_aloof _ _ _ _ _ (proj1 Hwf) Hk).
  pose proof (publishOne_wellFormed t args k sub r Ht Hwf) as Hwf1.
  destruct (publishOne invoke t args k sub r) as [[[]|e] r1]; [|reflexivity].
  now apply IH.
Qed.

(** On a registry whose handles are distinct, [publishRe] with handlers that
    act on the world alone is [publish]. *)
Lemma publishRe_aloof topic args r :
  wellFormed r ->
  publishRe (aloof invoke) topic args r = publish invoke topic args r.
Proof.
  intros Hwf. unfold publishRe, publish, bind.
  destruct topic; try reflexivity.
  destruct (string_dec s EmptyString) as [->|Hne]; [reflexivity|].
  rewrite (assertValidTopic_ok _ _ Hne). unfold getMap.
  destruct (Map_get s (topicToSubscriptionsMap r)) as [subs|]; [|reflexivity].
  destruct (Nat.eqb (length subs) 0); [reflexivity|].
  now rewrite (forEach_aloof s args _ Hne).
Qed.

Lemma publishTimesRe_aloof n topic args :
  forall r,
    wellFormed r ->
    publishTimesRe (aloof invoke) n topic args r
    = publishTimes invoke n topic args r.
Proof.
  induction n as [|n IH]; intros r Hwf; simpl; [reflexivity|].
  rewrite (publishRe_aloof _ _ _ Hwf). apply IH. now apply publish_wellFormed.
Qed.



(** The pass of [publish] that has gone through the indices before [k], from
    index [k] on. *)
Lemma forEach_resume t (cb : nat -> Subscription -> M World unit)
    (k more : nat) :
  forall j r r1,
    forEach t cb j k r = (Normal tt, r1) ->
    forEach t cb j (k + more) r = forEach t cb (j + k) more r1.
Proof.
  induction k as [|k IH]; intros j r r1; simpl.
  - intros [= <-]. now rewrite Nat.add_0_r.
  - rewrite Nat.add_succ_r.
    destruct (liveArray t (topicToSubscriptionsMap r) !! j) as [sub|];
      [|apply IH].
    unfold bind. destruct (cb j sub r) as [[[]|e] r0]; [apply IH|discriminate].
Qed.

(** C9. When a handler throws during a pass of [publish], [publish] throws
    the same exception, takes nothing off the budget of the subscription and
    calls no later handler of the pass.

    First, whatever the handlers do ([run]): when the pass has gone through
    the indices before [k], finds at index [k] a subscription with budget
    left and its handler throws [e], [publish] throws [e] and leaves the
    realm as that handler has left it, with the call added to the trace.

    Second, for the handlers that do not use the registry, read off the
    trace: a call recorded by the pass that threw [e] is the last of the
    trace, and [publish] throws [e].  The subscription whose handler threw is
    in the array at the index that the calls and the removals before it give
    it, and from that index on the array is as it was when the pass began:
    the budget of that subscription has not gone down and no subscription
    after it has fired or gone.  [d] is the number of subscriptions the pass
    has removed. *)
Theorem handler_exception_propagates t args r :
  t <> EmptyString ->
  (forall run k sub r1 r2 e,
     k < length (liveArray t (topicToSubscriptionsMap r)) ->
     forEach t (publishOneRe run t args) 0 k r = (Normal tt, r1) ->
     liveArray t (topicToSubscriptionsMap r1) !! k = Some sub ->
     eligible sub = true ->
     run (symbol sub) (handler sub) args r1 = (Throw e, r2) ->
     publishRe run (VString t) args r
     = (Throw e, recordCall (handler sub) args (Throw e) (world r2) r2)) /\
  (wellFormed r ->
   forall later i f a e,
     let out := publishRe (aloof invoke) (VString t) args r in
     let before := liveArray t (topicToSubscriptionsMap r) in
     let after := liveArray t (topicToSubscriptionsMap (snd out)) in
     let d := length before - length after in
     calls (snd out) = calls r ++ later ->
     later !! i = Some (f, a, Throw e) ->
     fst out = Throw e /\
     S i = length later /\
     a = args /\
     exists sub,
       after !! (i + d) = Some sub /\
       handler sub = f /\
       eligible sub = true /\
       drop (i + d) after = drop (i + d + d) before).
Proof.
  intros Ht. split.
  { intros run k sub r1 r2 e Hk Hloop Hsub Hel Hrun.
    unfold publishRe, bind. rewrite (assertValidTopic_ok _ _ Ht).
    unfold getMap, ret. unfold liveArray in Hk.
    destruct (Map_get t (topicToSubscriptionsMap r)) as [subs|];
      [|simpl in Hk; lia].
    destruct (Nat.eqb_spec (length subs) 0) as [H0|_]; [lia|].
    replace (length subs) with (k + S (length subs - S k)) by lia.
    rewrite (forEach_resume _ _ _ _ _ _ _ Hloop). simpl.
    rewrite Hsub. unfold bind, publishOneRe. fold (eligible sub). rewrite Hel.
    unfold bind, callHandlerRe. now rewrite Hrun. }
  intros Hwf later i f a e out before after d. subst out before after d.
  rewrite (publishRe_aloof _ _ _ Hwf), (publish_eq _ _ _ Ht).
  assert (Hnone : calls r = calls r ++ later ->
                  later !! i = Some (f, a, Throw e) -> False).
  { intros H. rewrite <- (app_nil_r (calls r)) in H at 1.
    apply app_inv_head in H as <-. now rewrite lookup_nil. }
  destruct (Map_get t (topicToSubscriptionsMap r)) as [subs|] eqn:Hget.
  2:{ simpl. intros H1 H2. destruct (Hnone H1 H2). }
  destruct (Nat.eqb (length subs) 0).
  { simpl. intros H1 H2. destruct (Hnone H1 H2). }
  rewrite (liveArray_get _ _ _ Hget).
  destruct (forEach t (publishOne invoke t args) 0 (length subs) r)
    as [c r'] eqn:Hloop.
  destruct c as [u|e0]; simpl.
  - apply (publish_pass t args subs) in Hloop as (later' & Hcalls & Hc); [|exact Ht|].
    2:{ rewrite <- (liveArray_get _ _ _ Hget). apply untouchedFrom_start. }
    intros H1 Hi. rewrite Hcalls in H1. apply app_inv_head in H1 as <-.
    rewrite Forall_forall in Hc.
    specialize (Hc _ (list_elem_of_lookup_2 _ _ _ Hi)). discriminate.
  - apply (pass_throw_position t args subs _ Ht 0 0) in Hloop
      as (mid & extra & sub & Hcalls & Hret & Hlen & Hsub & Hel & Hdrop).
    2:{ rewrite (liveArray_get _ _ _ Hget). lia. }
    2:{ now rewrite (liveArray_get _ _ _ Hget). }
    simpl in Hlen, Hsub, Hdrop.
    intros H1 Hi. rewrite Hcalls in H1. apply app_inv_head in H1 as <-.
    assert (Hi' : i = length mid).
    { destruct (decide (i < length mid)) as [Hlt|Hge].
      - rewrite lookup_app_l in Hi by exact Hlt.
        rewrite Forall_forall in Hret.
        specialize (Hret _ (list_elem_of_lookup_2 _ _ _ Hi)). discriminate.
      - apply lookup_lt_Some in Hi. rewrite length_app in Hi. simpl in Hi. lia. }
    subst i. rewrite list_lookup_middle in Hi by reflexivity.
    injection Hi as <- <- <-.
    replace (length subs - length (liveArray t (topicToSubscriptionsMap r')))
      with extra by lia.
    split; [reflexivity|]. split; [rewrite length_app; simpl; lia|].
    split; [reflexivity|]. exists sub. repeat split; assumption.
Qed.

End Methods.

(** ** Scenarios *)

Lemma reachable_exhaustedFirst : reachable quiet exhaustedFirst.
Proof.
  unfold exhaustedFirst, after, newRegistry.
  apply reachable_publish, reachable_subscribe, reachable_subscribe, reachable_new.
Qed.

Lemma reachable_firedOnce : reachable quiet firedOnce.
Proof.
  unfold firedOnce, after, newRegistry.
  apply reachable_publish, reachable_subscribe, reachable_new.
Qed.

(** C1, not met by the code.  A call of [publish] is to invoke, once and in
    registration order, the handler of every subscription whose budget is
    positive or unbounded when the call begins, removals during the pass or
    not.  In [exhaustedFirst] the array holds an exhausted subscription and
    after it an unbounded one: the call removes the first, returns [true],
    and leaves the trace as it was, so the handler of the second is not
    invoked. *)
Theorem publish_skips_after_removal :
  liveArray "a" (topicToSubscriptionsMap exhaustedFirst)
  = [mkSubscription 0 (Fin 0) 1; mkSubscription 1 PosInf 2] /\
  eligible (mkSubscription 1 PosInf 2) = true /\
  publish quiet topicA [VNumber (Fin 99)] exhaustedFirst
  = (Normal true, withMap [("a"%string, [mkSubscription 1 PosInf 2])] exhaustedFirst).
Proof. repeat split. Qed.

(** C2, not met by the code.  A subscription created with budget [N] is to
    be invoked on each of the next [N] calls of [publish] and to have budget
    [0] after them.  In [budgetOneThenTwo] the second subscription was
    created with budget [2] and one call has been made, which invoked it:
    the second call removes the exhausted first subscription and does not
    invoke the second one, whose budget is still [1] after the two calls. *)
Theorem budget_two_fires_once_in_two_calls :
  liveArray "a" (topicToSubscriptionsMap budgetOneThenTwo)
  = [mkSubscription 0 (Fin 0) 1; mkSubscription 1 (Fin 1) 2] /\
  calls budgetOneThenTwo
  = [(1, [VNumber (Fin 42)], Normal tt); (2, [VNumber (Fin 42)], Normal tt)] /\
  publish quiet topicA [VNumber (Fin 43)] budgetOneThenTwo
  = (Normal true,
     withMap [("a"%string, [mkSubscription 1 (Fin 1) 2])] budgetOneThenTwo).
Proof. repeat split. Qed.

(** C4, not met by the code.  A call with an invalid argument is to throw
    and to leave the state of the registry as it was, topic map included.  A
    call of [subscribe] with budget [0] on a topic that has no array throws,
    and leaves an empty array for the topic in the map.  A call with budget
    [NaN], which is not a number that is at least [1], does not throw. *)
Theorem subscribe_invalid_budget_leaves_topic :
  subscribe topicA (VFunction 1) (VNumber (Fin 0)) newRegistry
  = (Throw (TypeError "invocationsLeft must by a number > 0"),
     {| topicToSubscriptionsMap := [("a"%string, [])];
        symbolCount := 1; world := tt; calls := [] |}) /\
  topicToSubscriptionsMap newRegistry = [] /\
  subscribe topicA (VFunction 1) (VNumber NaN) newRegistry
  = (Normal 0,
     {| topicToSubscriptionsMap := [("a"%string, [mkSubscription 0 NaN 1])];
        symbolCount := 1; world := tt; calls := [] |}).
Proof. repeat split. Qed.

(** C5, not met by the code.  The subscription that [publish] removes is to
    be the exhausted one it has met, not another one with the same handler.
    In [duplicateExhausted] the same handler is subscribed twice, first with
    an unbounded budget, then with a budget that is used up: the call
    invokes the handler for the first subscription, then removes the first
    subscription and keeps the exhausted one. *)
Theorem publish_removes_active_duplicate :
  liveArray "a" (topicToSubscriptionsMap duplicateExhausted)
  = [mkSubscription 0 PosInf 1; mkSubscription 1 (Fin 0) 1] /\
  publish quiet topicA [VNumber (Fin 43)] duplicateExhausted
  = (Normal true,
     recordCall 1 [VNumber (Fin 43)] (Normal tt) tt
       (withMap [("a"%string, [mkSubscription 1 (Fin 0) 1])] duplicateExhausted)).
Proof. repeat split. Qed.

(** C7, not met by the code.  After unsubscribing by topic and handler, the
    later subscriptions with the same handler are to stay and to fire on the
    next call of [publish].  In [duplicatesAfterExhausted] the call of
    [unsubscribe] returns [true] and removes the first of the two, as it
    should; the next call of [publish] removes the exhausted subscription
    before them and does not invoke the handler of the one that stayed. *)
Theorem remaining_duplicate_not_fired :
  liveArray "x" (topicToSubscriptionsMap duplicatesAfterExhausted)
  = [mkSubscription 0 (Fin 0) 1; mkSubscription 1 PosInf 2; mkSubscription 2 PosInf 2] /\
  unsubscribe [topicX; VFunction 2] duplicatesAfterExhausted
  = (Normal true,
     withMap [("x"%string, [mkSubscription 0 (Fin 0) 1; mkSubscription 2 PosInf 2])]
       duplicatesAfterExhausted) /\
  publish quiet topicX [VNumber (Fin 43)]
    (after (unsubscribe [topicX; VFunction 2]) duplicatesAfterExhausted)
  = (Normal true,
     withMap [("x"%string, [mkSubscription 2 PosInf 2])] duplicatesAfterExhausted).
Proof. repeat split. Qed.





Lemma reachable_faultyAfterExhausted : reachable faulty faultyAfterExhausted.
Proof.
  unfold faultyAfterExhausted, after, newRegistry.
  apply reachable_publish.
  do 4 apply reachable_subscribe. apply reachable_new.
Qed.



Lemma publish_result_witness :
  "a"%string <> EmptyString /\
  fst (publish quiet (VString "a") [VNumber (Fin 99)] exhaustedFirst) = Normal true.
Proof.
  assert (Hne : "a"%string <> EmptyString) by discriminate.
  split; [exact Hne|].
  destruct (publish_result quiet "a" [VNumber (Fin 99)] exhaustedFirst Hne)
    as (_ & H & _).
  apply (H [mkSubscription 0 (Fin 0) 1; mkSubscription 1 PosInf 2]).
  - reflexivity.
  - discriminate.
  - intros sub w _ _. reflexivity.
Defined.

Lemma handler_exception_propagates_witness :
  "a"%string <> EmptyString /\
  wellFormed faultyAfterExhausted /\
  liveArray "a" (topicToSubscriptionsMap faultyAfterExhausted)
  = [mkSubscription 0 (Fin 0) 3; mkSubscription 1 PosInf 1;
     mkSubscription 2 (Fin 3) 7; mkSubscription 3 PosInf 2] /\
  fst (publishRe (aloof faulty) (VString "a") [VNumber (Fin 43)] faultyAfterExhausted)
  = Throw (Thrown (VString "boom")) /\
  liveArray "a"
    (topicToSubscriptionsMap
       (snd (publishRe (aloof faulty) (VString "a") [VNumber (Fin 43)]
               faultyAfterExhausted)))
  = [mkSubscription 1 PosInf 1; mkSubscription 2 (Fin 3) 7; mkSubscription 3 PosInf 2] /\
  (exists sub,
    [mkSubscription 1 PosInf 1; mkSubscription 2 (Fin 3) 7; mkSubscription 3 PosInf 2]
      !! 1 = Some sub /\
    handler sub = 7 /\ eligible sub = true) /\
  publishRe (aloof faulty) (VString "a") [VNumber (Fin 43)] faultyAfterExhausted
  = (Throw (Thrown (VString "boom")),
     recordCall 7 [VNumber (Fin 43)] (Throw (Thrown (VString "boom"))) tt
       (withMap
          [("a"%string,
            [mkSubscription 1 PosInf 1; mkSubscription 2 (Fin 3) 7;
             mkSubscription 3 PosInf 2])]
          faultyAfterExhausted)).
Proof.
  assert (Hne : "a"%string <> EmptyString) by discriminate.
  pose proof (reachable_wellFormed faulty _ reachable_faultyAfterExhausted) as Hwf.
  destruct (handler_exception_propagates faulty "a" [VNumber (Fin 43)]
              faultyAfterExhausted Hne) as [Hany Hpass].
  assert (Hk : 1 < length (liveArray "a" (topicToSubscriptionsMap faultyAfterExhausted)))
    by (vm_compute; lia).
  pose proof (Hany (aloof faulty) 1 (mkSubscription 2 (Fin 3) 7)
                (withMap
                   [("a"%string,
                     [mkSubscription 1 PosInf 1; mkSubscription 2 (Fin 3) 7;
                      mkSubscription 3 PosInf 2])]
                   faultyAfterExhausted)
                (withMap
                   [("a"%string,
                     [mkSubscription 1 PosInf 1; mkSubscription 2 (Fin 3) 7;
                      mkSubscription 3 PosInf 2])]
                   faultyAfterExhausted)
                (Thrown (VString "boom")) Hk eq_refl eq_refl eq_refl eq_refl)
    as Hrealm.
  destruct (Hpass Hwf
              [(7, [VNumber (Fin 43)], Throw (Thrown (VString "boom")))]
              0 7 [VNumber (Fin 43)] (Thrown (VString "boom"))
              eq_refl eq_refl)
    as (Hthrow & _ & _ & sub & Hsub & Hh & Hel & _).
  split; [exact Hne|]. split; [exact Hwf|]. split; [reflexivity|].
  split; [exact Hthrow|]. split; [reflexivity|].
  split; [|exact Hrealm].
  exists sub. split; [exact Hsub|]. split; [exact Hh|exact Hel].
Defined.

Lemma unsubscribe_by_handle_witness :
  reachable quiet exhaustedFirst /\
  unsubscribe [VSymbol 1] exhaustedFirst
  = (Normal true, withMap [("a"%string, [mkSubscription 0 (Fin 0) 1])] exhaustedFirst) /\
  unsubscribe [VSymbol 1]
    (withMap [("a"%string, [mkSubscription 0 (Fin 0) 1])] exhaustedFirst)
  = (Normal false, withMap [("a"%string, [mkSubscription 0 (Fin 0) 1])] exhaustedFirst) /\
  unsubscribe [VSymbol 5] exhaustedFirst = (Normal false, exhaustedFirst).
Proof.
  pose proof (unsubscribe_by_handle quiet exhaustedFirst reachable_exhaustedFirst)
    as (_ & Hpresent & Habsent).
  split; [exact reachable_exhaustedFirst|].
  destruct (Hpresent [] "a"%string
              [mkSubscription 0 (Fin 0) 1; mkSubscription 1 PosInf 2] []
              1 (mkSubscription 1 PosInf 2) eq_refl eq_refl) as [H1 H2].
  split; [exact H1|]. split; [exact H2|].
  apply Habsent. intros (sub & Hin & Hs).
  vm_compute in Hin.
  apply elem_of_cons in Hin as [->|Hin]; [discriminate Hs|].
  apply elem_of_cons in Hin as [->|Hin]; [discriminate Hs|].
  inversion Hin.
Defined.

(** ** Further properties of the methods *)

Section Further.

Context {World : Type}.
Variable invoke : FunctionId -> list JSValue -> World -> Completion unit * World.

Implicit Types (r : Realm World) (m : TopicMap) (t : string)
  (subs : list Subscription) (sub : Subscription) (args : list JSValue).

Lemma Map_get_mutate_other t t' f m :
  t <> t' -> Map_get t' (Map_mutate t f m) = Map_get t' m.
Proof.
  intros Hne. induction m as [|[t0 subs0] m IH]; simpl; [reflexivity|].
  destruct (String.eqb_spec t0 t) as [->|H0]; simpl.
  - destruct (String.eqb_spec t t'); [congruence|reflexivity].
  - destruct (String.eqb t0 t'); [reflexivity|exact IH].
Qed.

Lemma liveArray_mutate_other t t' f m :
  t <> t' -> liveArray t' (Map_mutate t f m) = liveArray t' m.
Proof. intros Hne. unfold liveArray. now rewrite Map_get_mutate_other. Qed.

Lemma topicsOf_mutate t f m : topicsOf (Map_mutate t f m) = topicsOf m.
Proof.
  unfold topicsOf. induction m as [|[t' subs'] m IH]; simpl; [reflexivity|].
  destruct (String.eqb t' t); simpl; [reflexivity|now rewrite IH].
Qed.

(** *** [subscribe] *)

(** A call of [subscribe] with a valid topic, a function and a valid budget
    returns the symbol it has minted and puts the new subscription at the end
    of the topic's array.  The subscriptions that were there stay before it,
    in their order; the arrays of the other topics, the world and the trace
    are as they were. *)
Theorem subscribe_appends t f budget x r :
  t <> EmptyString ->
  defaultTo (VNumber Infinity) budget = VNumber x ->
  Number_lt x (Fin 1) = false ->
  exists r',
    subscribe (VString t) (VFunction f) budget r = (Normal (symbolCount r), r') /\
    liveArray t (topicToSubscriptionsMap r')
    = liveArray t (topicToSubscriptionsMap r) ++ [mkSubscription (symbolCount r) x f] /\
    (forall t', t' <> t ->
       liveArray t' (topicToSubscriptionsMap r')
       = liveArray t' (topicToSubscriptionsMap r)) /\
    symbolCount r' = S (symbolCount r) /\
    world r' = world r /\ calls r' = calls r.
Proof.
  intros Ht Hd Hx.
  destruct (subscribe_cases (VString t) (VFunction f) budget r)
    as [(H & _)|(t0 & f0 & [= <-] & _ & [= <-] & [(H & _)|(x0 & Hx0 & _ & ->)])].
  - simpl in H. rewrite (nonempty_length _ Ht) in H. discriminate.
  - unfold isValidBudget in H. rewrite Hd, Hx in H. discriminate.
  - assert (x0 = x) as -> by congruence.
    eexists. split; [reflexivity|]. simpl.
    split; [|split; [|repeat split]].
    + now rewrite (liveArray_mutate _ _ _ _ (ensured_get t _)).
    + intros t' Hne. rewrite liveArray_mutate_other by congruence.
      apply liveArray_ensured.
Qed.

(** In a reachable registry the handle that [subscribe] returns is carried by
    no subscription that was there before, and after the call no two
    subscriptions of the registry carry the same handle. *)
Theorem subscribe_handle_fresh topic fn budget r s r1 :
  reachable invoke r ->
  subscribe topic fn budget r = (Normal s, r1) ->
  ~ carried s (topicToSubscriptionsMap r) /\
  symbolsDistinct (topicToSubscriptionsMap r1).
Proof.
  intros Hreach Hsub. apply reachable_wellFormed in Hreach as Hwf.
  pose proof (subscribe_wellFormed topic fn budget r Hwf) as Hwf1.
  rewrite Hsub in Hwf1. simpl in Hwf1. split; [|apply Hwf1].
  destruct (subscribe_cases topic fn budget r)
    as [(_ & msg & H)|(t & f & -> & Ht & -> & [(_ & msg & H)|(x & _ & _ & H)])];
    rewrite H in Hsub; try discriminate.
  injection Hsub as <- _. intros (sub & Hin & Hs).
  destruct Hwf as [_ Hlt]. unfold symbolsMinted in Hlt.
  rewrite Forall_forall in Hlt. specialize (Hlt sub Hin). lia.
Qed.

(** In a reachable registry, subscribing and then unsubscribing by the handle
    returned gives every topic the array it had before. *)
Theorem subscribe_then_unsubscribe topic fn budget r s r1 :
  reachable invoke r ->
  subscribe topic fn budget r = (Normal s, r1) ->
  exists r2,
    unsubscribe [VSymbol s] r1 = (Normal true, r2) /\
    forall t', liveArray t' (topicToSubscriptionsMap r2)
               = liveArray t' (topicToSubscriptionsMap r).
Proof.
  intros Hreach Hsub. apply reachable_wellFormed in Hreach as Hwf.
  pose proof (subscribe_wellFormed topic fn budget r Hwf) as [Hnd _].
  rewrite Hsub in Hnd. simpl in Hnd.
  destruct (subscribe_cases topic fn budget r)
    as [(_ & msg & H)|(t & f & -> & Ht & -> & [(_ & msg & H)|(x & _ & _ & H)])];
    rewrite H in Hsub; try discriminate.
  injection Hsub as <- <-. simpl in *.
  destruct (Map_get_split _ _ _ (ensured_get t (topicToSubscriptionsMap r)))
    as (pre & post & Hens & _ & Hmut).
  rewrite Hmut in *. rewrite unsubscribeSymbol_eq. simpl.
  set (new := mkSubscription (symbolCount r) x f) in *.
  set (old := liveArray t (topicToSubscriptionsMap r)) in *.
  assert (Hidx : (old ++ [new]) !! length old = Some new).
  { now rewrite list_lookup_middle. }
  change (symbolCount r) with (symbol new).
  rewrite (spliceSymbol_distinct _ _ _ _ _ _ Hnd Hidx).
  eexists. split; [reflexivity|]. simpl. intros t'.
  rewrite delete_middle, app_nil_r, <- Hens. apply liveArray_ensured.
Qed.

(** Neither [subscribe] nor [unsubscribe] invokes a handler or touches the
    world, whatever their arguments and however they complete. *)
Theorem subscribe_unsubscribe_silent r :
  (forall topic fn budget,
      calls (snd (subscribe topic fn budget r)) = calls r /\
      world (snd (subscribe topic fn budget r)) = world r) /\
  (forall args,
      calls (snd (unsubscribe args r)) = calls r /\
      world (snd (unsubscribe args r)) = world r).
Proof.
  split.
  - intros topic fn budget.
    destruct (subscribe_cases topic fn budget r)
      as [(_ & msg & ->)|(t & f & -> & Ht & -> & [(_ & msg & ->)|(x & _ & _ & ->)])];
      now split.
  - intros args. destruct (unsubscribe args r) as [[b|e] r'] eqn:Hu; simpl.
    + apply unsubscribe_returns in Hu. destruct b; [|now subst].
      destruct Hu as (pre & t & subs & post & idx & sub & _ & _ & ->). now split.
    + apply unsubscribe_throws in Hu as [-> _]. now split.
Qed.

(** *** [publish] *)

(** A call of [publish] with a topic that is not a non-empty string throws a
    [TypeError] before it looks at the map: the realm is as it was and no
    handler has been invoked. *)
Theorem publish_invalid_topic topic args r :
  isValidTopic topic = false ->
  publish invoke topic args r
  = (Throw (TypeError "Topic must be a non empty string"), r).
Proof.
  unfold publish, bind, _assertValidTopic, throw.
  destruct topic; try reflexivity. simpl.
  destruct (Nat.eqb (String.length s) 0); [reflexivity|discriminate].
Qed.

(** What a call of [publish] leaves alone, whatever the topic and however
    the call completes: the topics of the map and their order, the symbol
    allocator, and the array of every other topic.  In the array of the topic
    itself no subscription is added and none changes place: the handles left
    are a sublist of the handles there were. *)
Lemma publish_frame topic args r :
  let r' := snd (publish invoke topic args r) in
  topicsOf (topicToSubscriptionsMap r') = topicsOf (topicToSubscriptionsMap r) /\
  symbolCount r' = symbolCount r /\
  (forall t', topic <> VString t' ->
     liveArray t' (topicToSubscriptionsMap r')
     = liveArray t' (topicToSubscriptionsMap r)) /\
  (forall t',
     symbol <$> liveArray t' (topicToSubscriptionsMap r')
       `sublist_of` symbol <$> liveArray t' (topicToSubscriptionsMap r)).
Proof.
  set (P := fun r' : Realm World =>
    topicsOf (topicToSubscriptionsMap r') = topicsOf (topicToSubscriptionsMap r) /\
    symbolCount r' = symbolCount r /\
    (forall t', topic <> VString t' ->
       liveArray t' (topicToSubscriptionsMap r')
       = liveArray t' (topicToSubscriptionsMap r)) /\
    (forall t',
       symbol <$> liveArray t' (topicToSubscriptionsMap r')
         `sublist_of` symbol <$> liveArray t' (topicToSubscriptionsMap r))).
  assert (HP : P r) by (repeat split; reflexivity).
  change (P (snd (publish invoke topic args r))).
  destruct (isValidTopic topic) eqn:Hvalid.
  2:{ destruct (publish_invalid invoke topic args r) as (msg & ->); [|exact HP].
      intros t0 ->. simpl in Hvalid. now destruct t0. }
  destruct topic as [| | | |t| | |]; try discriminate.
  assert (Ht : t <> EmptyString) by (intros ->; discriminate).
  rewrite (publish_eq _ _ _ _ Ht).
  destruct (Map_get t (topicToSubscriptionsMap r)) as [subs|]; [|exact HP].
  destruct (Nat.eqb (length subs) 0); [exact HP|].
  pose proof (forEach_preserves P t (publishOne invoke t args)
                0 (length subs) r) as H.
  assert (Hend : P (snd (forEach t (publishOne invoke t args) 0 (length subs) r))).
  { apply H; [|exact HP]. clear H HP. intros k sub r1 (H1 & H2 & H3 & H4) Hk.
    assert (Hstep : forall f,
      (forall l, symbol <$> f l `sublist_of` symbol <$> l) ->
      P (withMap (Map_mutate t f (topicToSubscriptionsMap r1)) r1)).
    { intros f Hf. unfold P. simpl. rewrite topicsOf_mutate.
      split; [exact H1|]. split; [exact H2|]. split.
      - intros t' Hne. rewrite liveArray_mutate_other by congruence. now apply H3.
      - intros t'. etransitivity; [|apply H4].
        destruct (string_dec t t') as [<-|Hne].
        + rewrite (liveArray_mutate _ _ _ _ (liveArray_Some _ _ _ _ Hk)). apply Hf.
        + now rewrite liveArray_mutate_other. }
    destruct (publishOne_cases invoke t args k sub r1 Ht Hk)
      as [(_ & w & [(_ & ->)|(e & _ & ->)])|(_ & idx & _ & ->)]; simpl.
    - apply (Hstep (alter decrement k)). intros l.
      change (map symbol (alter decrement k l) `sublist_of` map symbol l).
      now rewrite alter_decrement_symbols.
    - repeat split; assumption.
    - apply (Hstep (delete idx)). intros l. apply fmap_sublist, sublist_delete. }
  destruct (forEach t (publishOne invoke t args) 0 (length subs) r) as [[[]|e] r'];
    exact Hend.
Qed.

Lemma filter_sublist_mono {A} (P : A -> Prop) `{!forall x, Decision (P x)}
    (l1 l2 : list A) :
  l1 `sublist_of` l2 -> filter P l1 `sublist_of` filter P l2.
Proof.
  induction 1 as [|x l1 l2 _ IH|x l1 l2 _ IH].
  - constructor.
  - rewrite !filter_cons. destruct (decide (P x)); [now constructor|exact IH].
  - rewrite filter_cons. destruct (decide (P x)); [now constructor|exact IH].
Qed.

(** The calls of a pass from index [k] on, when the array from [k] on is the
    part of the first array from [j] on. *)
Lemma pass_calls t args subs0 n :
  t <> EmptyString ->
  forall k j r c r',
    drop k (liveArray t (topicToSubscriptionsMap r)) = drop j subs0 ->
    forEach t (publishOne invoke t args) k n r = (c, r') ->
    exists later,
      calls r' = calls r ++ later /\
      fst <$> later `sublist_of`
        (fun sub => (handler sub, args))
          <$> filter (fun sub => eligible sub = true) (drop j subs0).
Proof.
  intros Ht. induction n as [|n IH]; intros k j r c r' Hd; simpl.
  - intros [= <- <-]. exists []. split; [now rewrite app_nil_r|apply sublist_nil_l].
  - destruct (liveArray t (topicToSubscriptionsMap r) !! k) as [sub|] eqn:Hk.
    2:{ apply IH. apply lookup_ge_None in Hk.
        rewrite drop_ge in Hd by exact Hk. rewrite drop_ge by lia. exact Hd. }
    assert (Hj : drop j subs0 = sub :: drop (S j) subs0).
    { rewrite <- Hd, (drop_S _ _ _ Hk). f_equal.
      replace (S j) with (j + 1) by lia. replace (S k) with (k + 1) by lia.
      now apply drop_shift. }
    assert (Hmono : forall d,
      (fun sub => (handler sub, args))
        <$> filter (fun sub => eligible sub = true) (drop (j + d) subs0)
      `sublist_of`
      (fun sub => (handler sub, args))
        <$> filter (fun sub => eligible sub = true) (drop j subs0)).
    { intros d. apply fmap_sublist, filter_sublist_mono.
      rewrite <- drop_drop. apply sublist_drop. }
    unfold bind.
    destruct (publishOne_cases invoke t args k sub r Ht Hk)
      as [(Hel & w & [(_ & ->)|(e & _ & ->)])|(Hel & idx & Hidx & ->)].
    + intros Hrest. apply (IH (S k) (S j)) in Hrest as (later & Hcalls & Hsub).
      2:{ simpl. rewrite (liveArray_mutate _ _ _ _ (liveArray_Some _ _ _ _ Hk)).
          rewrite drop_after_alter.
          replace (S j) with (j + 1) by lia. replace (S k) with (k + 1) by lia.
          now apply drop_shift. }
      exists ((handler sub, args, Normal tt) :: later). split.
      { rewrite Hcalls. simpl. now rewrite <- app_assoc. }
      rewrite Hj, filter_cons_True by exact Hel. simpl. now constructor.
    + intros [= <- <-]. exists [(handler sub, args, Throw e)].
      split; [reflexivity|].
      rewrite Hj, filter_cons_True by exact Hel. simpl.
      constructor. apply sublist_nil_l.
    + intros Hrest. apply (IH (S k) (j + 2)) in Hrest as (later & Hcalls & Hsub).
      2:{ simpl. rewrite (liveArray_mutate _ _ _ _ (liveArray_Some _ _ _ _ Hk)).
          rewrite drop_after_delete by exact Hidx.
          replace (S (S k)) with (k + 2) by lia. now apply drop_shift. }
      exists later. split; [exact Hcalls|].
      etransitivity; [exact Hsub|apply Hmono].
Qed.

(** The handlers that a call of [publish] invokes, in the order of the
    calls, are a sublist of the handlers of the subscriptions that were
    eligible in the array when the call began, each with the arguments
    published: registration order is kept, no subscription fires twice in a
    pass, and an exhausted subscription never fires. *)
Lemma publish_calls_in_order t args r :
  t <> EmptyString ->
  exists later,
    calls (snd (publish invoke (VString t) args r)) = calls r ++ later /\
    fst <$> later `sublist_of`
      (fun sub => (handler sub, args))
        <$> filter (fun sub => eligible sub = true)
              (liveArray t (topicToSubscriptionsMap r)).
Proof.
  intros Ht. rewrite (publish_eq _ _ _ _ Ht).
  assert (Hnone : exists later,
             calls r = calls r ++ later /\
             fst <$> later `sublist_of`
               (fun sub => (handler sub, args))
                 <$> filter (fun sub => eligible sub = true)
                       (liveArray t (topicToSubscriptionsMap r))).
  { exists []. split; [now rewrite app_nil_r|apply sublist_nil_l]. }
  destruct (Map_get t (topicToSubscriptionsMap r)) as [subs|] eqn:Hget;
    [|exact Hnone].
  destruct (Nat.eqb (length subs) 0); [exact Hnone|].
  destruct (forEach t (publishOne invoke t args) 0 (length subs) r)
    as [c r'] eqn:Hloop.
  apply (pass_calls t args (liveArray t (topicToSubscriptionsMap r)) _ Ht 0 0)
    in Hloop as (later & Hcalls & Hsub); [|reflexivity].
  exists later. rewrite drop_0 in Hsub. destruct c as [[]|e]; now split.
Qed.

(** When no subscription of the topic's array is exhausted and the handlers
    return, a call of [publish] returns [true], invokes every handler once,
    in registration order and with the arguments published, and takes one
    off every budget; nothing is removed. *)
Lemma publish_none_exhausted t args subs r :
  t <> EmptyString ->
  Map_get t (topicToSubscriptionsMap r) = Some subs ->
  subs <> [] ->
  Forall (fun sub => eligible sub = true) subs ->
  (forall sub w, sub ∈ subs -> fst (invoke (handler sub) args w) = Normal tt) ->
  exists r',
    publish invoke (VString t) args r = (Normal true, r') /\
    liveArray t (topicToSubscriptionsMap r') = decrement <$> subs /\
    calls r' = calls r ++ invocations args subs.
Proof.
  intros Ht Hget Hne Hel Hquiet.
  destruct (publish_all_eligible invoke t args subs r Ht Hget Hne Hel Hquiet)
    as (w' & ->).
  eexists. split; [reflexivity|]. simpl. split; [|reflexivity].
  now rewrite (liveArray_mutate _ _ _ _ Hget).
Qed.

(** Subscriptions with an unbounded budget fire on every call of [publish],
    however many calls are made: when every subscription of the topic's
    array is unbounded and the handlers return, [n] calls leave the map as
    it was and add [n] rounds of invocations to the trace. *)
Lemma unbounded_fires_forever t args subs n r :
  t <> EmptyString ->
  Map_get t (topicToSubscriptionsMap r) = Some subs ->
  subs <> [] ->
  Forall (fun sub => invocationsLeft sub = Infinity) subs ->
  (forall sub w, sub ∈ subs -> fst (invoke (handler sub) args w) = Normal tt) ->
  let r' := publishTimes invoke n (VString t) args r in
  topicToSubscriptionsMap r' = topicToSubscriptionsMap r /\
  calls r' = calls r ++ concat (replicate n (invocations args subs)).
Proof.
  intros Ht Hget Hne Hinf Hquiet. revert r Hget.
  assert (Hsame : decrement <$> subs = subs).
  { clear -Hinf. induction Hinf as [|[s b f] l Hb _ IH]; [reflexivity|].
    rewrite fmap_cons. f_equal; [|exact IH]. simpl in Hb. now subst b. }
  induction n as [|n IH]; intros r Hget; simpl.
  - split; [reflexivity|now rewrite app_nil_r].
  - destruct (publish_all_eligible invoke t args subs r Ht Hget Hne) as (w' & ->).
    + eapply Forall_impl; [exact Hinf|]. intros sub Hs. unfold eligible.
      now rewrite Hs.
    + exact Hquiet.
    + simpl snd. rewrite Hsame.
      assert (Hmap : Map_mutate t (fun _ => subs) (topicToSubscriptionsMap r)
                     = topicToSubscriptionsMap r).
      { pose proof (Map_mutate_live t (topicToSubscriptionsMap r)) as Hl.
        now rewrite (liveArray_get _ _ _ Hget) in Hl. }
      rewrite Hmap.
      match goal with |- context [publishTimes invoke n _ _ ?r1] =>
        destruct (IH r1 Hget) as [H1 H2] end.
      split; [exact H1|]. rewrite H2. simpl. now rewrite <- !app_assoc.
Qed.

Lemma findHandler_distinct done x rest :
  NoDup (handler <$> (done ++ x :: rest)) ->
  findHandler (handler x) (done ++ x :: rest) = Some (length done, x).
Proof.
  intros Hnd. apply findHandler_Some. split; [|split; [reflexivity|]].
  - now rewrite list_lookup_middle.
  - intros j y Hj Hlt Heq.
    assert (j = length done); [|lia].
    apply (NoDup_lookup _ j (length done) (handler x) Hnd).
    + now rewrite list_lookup_fmap, Hj, <- Heq.
    + now rewrite list_lookup_fmap, list_lookup_middle.
Qed.

(** A pass over [rem], the part of the array from index [length done] on,
    when no handler is subscribed twice and the handlers return. *)
Lemma pass_distinct t args n :
  t <> EmptyString ->
  forall rem done r,
    liveArray t (topicToSubscriptionsMap r) = done ++ rem ->
    length rem <= n ->
    NoDup (handler <$> (done ++ rem)) ->
    (forall sub w, sub ∈ rem -> fst (invoke (handler sub) args w) = Normal tt) ->
    exists r',
      forEach t (publishOne invoke t args) (length done) n r = (Normal tt, r') /\
      liveArray t (topicToSubscriptionsMap r') = done ++ fst (passOutcome rem) /\
      calls r' = calls r ++ invocations args (snd (passOutcome rem)).
Proof.
  intros Ht. induction n as [|n IH]; intros rem done r Hlive Hlen Hnd Hquiet.
  { destruct rem; [|simpl in Hlen; lia]. exists r. simpl.
    split; [reflexivity|]. split; [exact Hlive|now rewrite app_nil_r]. }
  destruct rem as [|x rest].
  { exists r. rewrite forEach_beyond.
    - simpl. split; [reflexivity|]. split; [exact Hlive|now rewrite app_nil_r].
    - rewrite Hlive, app_nil_r. lia. }
  assert (Hk : liveArray t (topicToSubscriptionsMap r) !! length done = Some x).
  { now rewrite Hlive, list_lookup_middle. }
  pose proof (liveArray_Some _ _ _ _ Hk) as Hget.
  cbn [forEach]. rewrite Hk. unfold bind.
  destruct (eligible x) eqn:Hel.
  - rewrite (publishOne_eligible _ _ _ _ _ _ Hel).
    pose proof (Hquiet x (world r) (list_elem_of_here _ _)) as Hx.
    destruct (invoke (handler x) args (world r)) as [[[]|e] w]; [|discriminate].
    destruct (IH rest (done ++ [decrement x])
                (withMap (Map_mutate t (alter decrement (length done))
                            (topicToSubscriptionsMap r))
                   (recordCall (handler x) args (Normal tt) w r)))
      as (r' & Hloop & Hlive' & Hcalls').
    + simpl. rewrite (liveArray_mutate _ _ _ _ Hget), Hlive.
      replace (length done) with (length done + 0) at 1 by lia.
      rewrite alter_app_r. simpl. now rewrite <- app_assoc.
    + simpl in Hlen. lia.
    + rewrite <- app_assoc. simpl. rewrite !fmap_app in *. exact Hnd.
    + intros sub w' Hin. apply Hquiet. now right.
    + rewrite length_app, Nat.add_comm in Hloop. simpl in Hloop.
      exists r'. split; [exact Hloop|].
      simpl. rewrite Hel. destruct (passOutcome rest) as [kept fired]. simpl in *.
      split; [now rewrite Hlive', <- app_assoc|].
      rewrite Hcalls'. now rewrite <- app_assoc.
  - rewrite (publishOne_exhausted _ _ _ _ _ _ Ht Hel).
    rewrite (unsubscribeHandler_eq _ _ _ Ht), Hget, Hlive.
    rewrite (findHandler_distinct _ _ _ Hnd). simpl snd.
    set (r1 := withMap (Map_mutate t (delete (length done))
                          (topicToSubscriptionsMap r)) r).
    assert (Hlive1 : liveArray t (topicToSubscriptionsMap r1) = done ++ rest).
    { unfold r1. simpl. rewrite (liveArray_mutate _ _ _ _ Hget), Hlive.
      apply delete_middle. }
    destruct rest as [|y rest'].
    + exists r1. rewrite forEach_beyond.
      * simpl. rewrite Hel. split; [reflexivity|].
        split; [exact Hlive1|now rewrite app_nil_r].
      * rewrite Hlive1, app_nil_r. lia.
    + destruct (IH rest' (done ++ [y]) r1) as (r' & Hloop & Hlive' & Hcalls').
      * now rewrite Hlive1, <- app_assoc.
      * simpl in Hlen. lia.
      * rewrite <- app_assoc. simpl.
        eapply sublist_NoDup; [exact Hnd|].
        apply fmap_sublist, sublist_app; [reflexivity|]. now constructor.
      * intros sub w' Hin. apply Hquiet. right. now right.
      * rewrite length_app, Nat.add_comm in Hloop. simpl in Hloop.
        exists r'. split; [exact Hloop|].
        simpl. rewrite Hel. destruct (passOutcome rest') as [kept fired].
        simpl in *. split; [now rewrite Hlive', <- app_assoc|exact Hcalls'].
Qed.

(** What a call of [publish] does when no handler is subscribed twice to the
    topic and the handlers return.  Going through the array: an eligible
    subscription fires and loses one from its budget; an exhausted one is
    removed, and the subscription right after it, which takes its index, is
    passed over in this call, neither fired nor removed. *)
Lemma publish_distinct_handlers t args subs r :
  t <> EmptyString ->
  Map_get t (topicToSubscriptionsMap r) = Some subs ->
  subs <> [] ->
  NoDup (handler <$> subs) ->
  (forall sub w, sub ∈ subs -> fst (invoke (handler sub) args w) = Normal tt) ->
  exists r',
    publish invoke (VString t) args r = (Normal true, r') /\
    liveArray t (topicToSubscriptionsMap r') = fst (passOutcome subs) /\
    calls r' = calls r ++ invocations args (snd (passOutcome subs)).
Proof.
  intros Ht Hget Hne Hnd Hquiet. rewrite (publish_eq _ _ _ _ Ht), Hget.
  destruct (Nat.eqb_spec (length subs) 0) as [H0|_].
  { destruct subs; [congruence|discriminate]. }
  destruct (pass_distinct t args (length subs) Ht subs [] r)
    as (r' & Hloop & Hlive & Hcalls); auto.
  { now rewrite (liveArray_get _ _ _ Hget). }
  simpl in Hloop. rewrite Hloop. exists r'. now repeat split.
Qed.

(** *** The topics of the map *)

(** Neither [subscribe] nor [unsubscribe] removes a topic from the map or
    moves one: [unsubscribe] leaves the topics as they are, also when it
    empties an array, and [subscribe] at most adds its topic after the
    others. *)
Theorem topics_never_removed r :
  (forall topic fn budget,
      topicsOf (topicToSubscriptionsMap r)
        `prefix_of` topicsOf (topicToSubscriptionsMap (snd (subscribe topic fn budget r)))) /\
  (forall args,
      topicsOf (topicToSubscriptionsMap (snd (unsubscribe args r)))
      = topicsOf (topicToSubscriptionsMap r)).
Proof.
  split.
  - intros topic fn budget.
    assert (Hens : forall t, topicsOf (topicToSubscriptionsMap r)
                     `prefix_of` topicsOf (ensured t (topicToSubscriptionsMap r))).
    { intros t. unfold ensured, Map_has.
      destruct (Map_get t (topicToSubscriptionsMap r)) eqn:Hget; [reflexivity|].
      rewrite (Map_set_absent _ _ _ Hget). unfold topicsOf. rewrite map_app.
      now apply prefix_app_r. }
    destruct (subscribe_cases topic fn budget r)
      as [(_ & msg & ->)|(t & f & -> & Ht & -> & [(_ & msg & ->)|(x & _ & _ & ->)])];
      simpl; [reflexivity|apply Hens|].
    rewrite topicsOf_mutate. apply Hens.
  - intros args. destruct (unsubscribe args r) as [[b|e] r'] eqn:Hu; simpl.
    + apply unsubscribe_returns in Hu. destruct b; [|now subst].
      destruct Hu as (pre & t & subs & post & idx & sub & -> & _ & ->). simpl.
      unfold topicsOf. now rewrite !map_app.
    + now apply unsubscribe_throws in Hu as [-> _].
Qed.

(** *** [publish] with handlers that do not use the registry *)

(** The properties of this part are about [publishRe], the [publish] of
    handlers that may do anything, taken at handlers that act on the world
    alone, and about registries whose handles are distinct, as the handles
    of every reachable registry are. *)

(** When no subscription of the topic's array is exhausted and the handlers
    return without using the registry, a call of [publish] returns [true],
    invokes every handler once, in registration order and with the arguments
    published, and takes one off every budget, as binary64 does; nothing is
    removed. *)
Theorem publishRe_none_exhausted t args subs r :
  t <> EmptyString ->
  wellFormed r ->
  Map_get t (topicToSubscriptionsMap r) = Some subs ->
  subs <> [] ->
  Forall (fun sub => eligible sub = true) subs ->
  (forall sub w, sub ∈ subs -> fst (invoke (handler sub) args w) = Normal tt) ->
  exists r',
    publishRe (aloof invoke) (VString t) args r = (Normal true, r') /\
    liveArray t (topicToSubscriptionsMap r') = decrement <$> subs /\
    calls r' = calls r ++ invocations args subs.
Proof.
  intros Ht Hwf. rewrite (publishRe_aloof invoke _ _ _ Hwf).
  now apply publish_none_exhausted.
Qed.

(** Subscriptions with an unbounded budget fire on every call of [publish],
    however many calls are made: when every subscription of the topic's
    array is unbounded and the handlers return without using the registry,
    [n] calls leave the map as it was and add [n] rounds of invocations to
    the trace. *)
Theorem publishRe_unbounded_forever t args subs n r :
  t <> EmptyString ->
  wellFormed r ->
  Map_get t (topicToSubscriptionsMap r) = Some subs ->
  subs <> [] ->
  Forall (fun sub => invocationsLeft sub = Infinity) subs ->
  (forall sub w, sub ∈ subs -> fst (invoke (handler sub) args w) = Normal tt) ->
  let r' := publishTimesRe (aloof invoke) n (VString t) args r in
  topicToSubscriptionsMap r' = topicToSubscriptionsMap r /\
  calls r' = calls r ++ concat (replicate n (invocations args subs)).
Proof.
  intros Ht Hwf. rewrite (publishTimesRe_aloof invoke _ _ _ _ Hwf).
  now apply unbounded_fires_forever.
Qed.

(** A subscription that is alone in its array, with a budget [N] of at most
    2^53 and a handler that returns without using the registry: [N] calls of
    [publish] invoke the handler [N] times and leave the subscription in the
    array with budget [0]; the call after them returns [true], invokes
    nothing and empties the array. *)
Theorem publishRe_lone_lifetime t args s f (N : nat) r :
  t <> EmptyString ->
  wellFormed r ->
  (Z.of_nat N <= 9007199254740992)%Z ->
  Map_get t (topicToSubscriptionsMap r)
  = Some [mkSubscription s (Fin (Z.of_nat N)) f] ->
  (forall w, fst (invoke f args w) = Normal tt) ->
  let r' := publishTimesRe (aloof invoke) N (VString t) args r in
  Map_get t (topicToSubscriptionsMap r') = Some [mkSubscription s (Fin 0) f] /\
  calls r' = calls r ++ repeat (f, args, Normal tt) N /\
  publishRe (aloof invoke) (VString t) args r' =
  (Normal true, withMap (Map_mutate t (fun _ => []) (topicToSubscriptionsMap r')) r').
Proof.
  intros Ht Hwf Hbound Hget Hquiet.
  assert (Hwf' : wellFormed (publishTimes invoke N (VString t) args r)).
  { clear -Hwf. revert r Hwf. induction N as [|N IH]; intros r Hwf; simpl;
      [exact Hwf|]. apply IH. now apply publish_wellFormed. }
  cbv zeta. rewrite (publishTimesRe_aloof invoke _ _ _ _ Hwf).
  rewrite (publishRe_aloof invoke _ _ _ Hwf').
  now apply lone_subscription_lifetime.
Qed.

Lemma NoDup_calls args (l : list Subscription) :
  NoDup (handler <$> l) ->
  NoDup ((fun sub => (handler sub, args)) <$> l).
Proof.
  intros Hnd.
  replace ((fun sub => (handler sub, args)) <$> l)
    with ((fun h : FunctionId => (h, args)) <$> (handler <$> l)).
  - apply NoDup_fmap_2; [|exact Hnd]. intros x y [= ->]. reflexivity.
  - rewrite <- list_fmap_compose. reflexivity.
Qed.

(** When no handler is subscribed twice to the topic and the handlers do not
    use the registry, the calls that one call of [publish] makes, however it
    completes, are calls of handlers of subscriptions that were eligible in
    the array when the call began, with the arguments published, in the
    order of the array, and no handler is called twice: registration order
    is kept, no subscription fires twice in one pass, and an exhausted
    subscription does not fire. *)
Theorem publishRe_calls_in_order t args r :
  t <> EmptyString ->
  wellFormed r ->
  NoDup (handler <$> liveArray t (topicToSubscriptionsMap r)) ->
  exists later,
    calls (snd (publishRe (aloof invoke) (VString t) args r)) = calls r ++ later /\
    fst <$> later `sublist_of`
      (fun sub => (handler sub, args))
        <$> filter (fun sub => eligible sub = true)
              (liveArray t (topicToSubscriptionsMap r)) /\
    NoDup (fst <$> later).
Proof.
  intros Ht Hwf Hnd. rewrite (publishRe_aloof invoke _ _ _ Hwf).
  destruct (publish_calls_in_order t args r Ht) as (later & Hcalls & Hsub).
  exists later. split; [exact Hcalls|]. split; [exact Hsub|].
  eapply sublist_NoDup; [|exact Hsub].
  apply NoDup_calls. eapply sublist_NoDup; [exact Hnd|].
  apply fmap_sublist, sublist_filter.
Qed.

(** What a call of [publish] does when no handler is subscribed twice to the
    topic and the handlers return without using the registry.  Going through
    the array: an eligible subscription fires and loses one from its budget;
    an exhausted one is removed, and the subscription right after it, which
    takes its index, is passed over in this call, neither fired nor
    removed. *)
Theorem publishRe_distinct_handlers t args subs r :
  t <> EmptyString ->
  wellFormed r ->
  Map_get t (topicToSubscriptionsMap r) = Some subs ->
  subs <> [] ->
  NoDup (handler <$> subs) ->
  (forall sub w, sub ∈ subs -> fst (invoke (handler sub) args w) = Normal tt) ->
  exists r',
    publishRe (aloof invoke) (VString t) args r = (Normal true, r') /\
    liveArray t (topicToSubscriptionsMap r') = fst (passOutcome subs) /\
    calls r' = calls r ++ invocations args (snd (passOutcome subs)).
Proof.
  intros Ht Hwf. rewrite (publishRe_aloof invoke _ _ _ Hwf).
  now apply publish_distinct_handlers.
Qed.

(** What a call of [publish] leaves alone when the handlers do not use the
    registry, whatever the topic and however the call completes: the topics
    of the map and their order, the symbol allocator, and the array of every
    other topic.  In the array of the topic itself no subscription is added
    and none changes place: the handles left are a sublist of the handles
    there were. *)
Theorem publishRe_frame topic args r :
  wellFormed r ->
  let r' := snd (publishRe (aloof invoke) topic args r) in
  topicsOf (topicToSubscriptionsMap r') = topicsOf (topicToSubscriptionsMap r) /\
  symbolCount r' = symbolCount r /\
  (forall t', topic <> VString t' ->
     liveArray t' (topicToSubscriptionsMap r')
     = liveArray t' (topicToSubscriptionsMap r)) /\
  (forall t',
     symbol <$> liveArray t' (topicToSubscriptionsMap r')
       `sublist_of` symbol <$> liveArray t' (topicToSubscriptionsMap r)).
Proof.
  intros Hwf. rewrite (publishRe_aloof invoke _ _ _ Hwf). apply publish_frame.
Qed.

End Further.

(** ** Handlers that use the registry *)

Section ReentrantFacts.

Context {World : Type}.
Variable run :
  SymbolId -> FunctionId -> list JSValue -> Realm World ->
  Completion unit * Realm World.

Lemma forEach_throws_at t (cb : nat -> Subscription -> M World unit) n :
  forall k r e r',
    forEach t cb k n r = (Throw e, r') ->
    exists k' sub r1,
      liveArray t (topicToSubscriptionsMap r1) !! k' = Some sub /\
      cb k' sub r1 = (Throw e, r').
Proof.
  induction n as [|n IH]; intros k r e r'; simpl; [discriminate|].
  destruct (liveArray t (topicToSubscriptionsMap r) !! k) as [sub|] eqn:Hk;
    [|apply IH].
  unfold bind. destruct (cb k sub r) as [[[]|e1] r1] eqn:Hcb; [apply IH|].
  intros [= <- <-]. now exists k, sub, r.
Qed.

(** Whatever the handlers do, a call of [publish] with a valid topic throws
    only what a handler it has called has thrown, and it leaves the realm as
    that handler has left it, with the call recorded: after the throw it
    takes nothing off a budget and calls no other handler. *)
Lemma publishRe_throw_from_handler t args r e r' :
  t <> EmptyString ->
  publishRe run (VString t) args r = (Throw e, r') ->
  exists k sub r1 r2,
    liveArray t (topicToSubscriptionsMap r1) !! k = Some sub /\
    eligible sub = true /\
    run (symbol sub) (handler sub) args r1 = (Throw e, r2) /\
    r' = recordCall (handler sub) args (Throw e) (world r2) r2.
Proof.
  intros Ht. unfold publishRe, bind. rewrite (assertValidTopic_ok _ _ Ht).
  unfold getMap, ret.
  destruct (Map_get t (topicToSubscriptionsMap r)) as [subs|]; [|discriminate].
  destruct (Nat.eqb (length subs) 0); [discriminate|].
  destruct (forEach t (publishOneRe run t args) 0 (length subs) r)
    as [[[]|e0] r0] eqn:Hloop; [discriminate|].
  intros [= <- <-].
  apply forEach_throws_at in Hloop as (k & sub & r1 & Hk & Hcb).
  exists k, sub, r1. unfold publishOneRe in Hcb. unfold eligible.
  destruct (Number_gt (invocationsLeft sub) (Fin 0)).
  - unfold bind, callHandlerRe in Hcb.
    destruct (run (symbol sub) (handler sub) args r1) as [[[]|e1] r2];
      [discriminate|].
    injection Hcb as <- <-. now exists r2.
  - unfold bind in Hcb. rewrite (unsubscribeHandler_eq _ _ _ Ht) in Hcb.
    destruct (Map_get t (topicToSubscriptionsMap r1)) as [l|]; [|discriminate].
    destruct (findHandler (handler sub) l) as [[idx y]|]; discriminate.
Qed.

End ReentrantFacts.

(** ** The further properties on the scenarios *)

Lemma subscribe_appends_witness :
  "a"%string <> EmptyString /\
  defaultTo (VNumber Infinity) VUndefined = VNumber PosInf /\
  Number_lt PosInf (Fin 1) = false /\
  exists r',
    subscribe topicA (VFunction 2) VUndefined firedOnce = (Normal 1, r') /\
    liveArray "a" (topicToSubscriptionsMap r')
    = [mkSubscription 0 (Fin 0) 1; mkSubscription 1 PosInf 2].
Proof.
  assert (Hne : "a"%string <> EmptyString) by discriminate.
  split; [exact Hne|]. split; [reflexivity|]. split; [reflexivity|].
  destruct (subscribe_appends "a" 2 VUndefined PosInf firedOnce Hne eq_refl eq_refl)
    as (r' & Hsub & Hlive & _).
  exists r'. split; [exact Hsub|exact Hlive].
Defined.

Lemma subscribe_handle_fresh_witness :
  reachable quiet firedOnce /\
  ~ carried 1 (topicToSubscriptionsMap firedOnce) /\
  symbolsDistinct
    (topicToSubscriptionsMap (after (subscribe topicA (VFunction 1) VUndefined) firedOnce)).
Proof.
  split; [exact reachable_firedOnce|].
  exact (subscribe_handle_fresh quiet topicA (VFunction 1) VUndefined firedOnce 1 _
           reachable_firedOnce eq_refl).
Defined.

Lemma subscribe_then_unsubscribe_witness :
  reachable quiet firedOnce /\
  exists r2,
    unsubscribe [VSymbol 1] (after (subscribe topicX (VFunction 1) VUndefined) firedOnce)
    = (Normal true, r2) /\
    forall t', liveArray t' (topicToSubscriptionsMap r2)
               = liveArray t' (topicToSubscriptionsMap firedOnce).
Proof.
  split; [exact reachable_firedOnce|].
  exact (subscribe_then_unsubscribe quiet topicX (VFunction 1) VUndefined firedOnce 1 _
           reachable_firedOnce eq_refl).
Defined.

Lemma publish_invalid_topic_witness :
  isValidTopic (VString EmptyString) = false /\
  publish quiet (VString EmptyString) [VNumber (Fin 1)] firedOnce
  = (Throw (TypeError "Topic must be a non empty string"), firedOnce).
Proof.
  split; [reflexivity|].
  exact (publish_invalid_topic quiet (VString EmptyString) [VNumber (Fin 1)]
           firedOnce eq_refl).
Defined.

Lemma subscribe_invalid_topic_or_handler_witness :
  isValidTopic topicA && isFunction (VString "f") = false /\
  exists msg,
    subscribe topicA (VString "f") VUndefined firedOnce
    = (Throw (TypeError msg), firedOnce).
Proof.
  split; [reflexivity|].
  exact (subscribe_invalid_topic_or_handler topicA (VString "f") VUndefined
           firedOnce eq_refl).
Defined.

Lemma subscribe_invalid_budget_witness :
  isValidTopic topicX = true /\ isFunction (VFunction 3) = true /\
  isValidBudget (VNumber (Fin 0)) = false /\
  exists msg r',
    subscribe topicX (VFunction 3) (VNumber (Fin 0)) firedOnce
    = (Throw (TypeError msg), r') /\
    (forall t', liveArray t' (topicToSubscriptionsMap r')
                = liveArray t' (topicToSubscriptionsMap firedOnce)) /\
    world r' = world firedOnce /\ calls r' = calls firedOnce.
Proof.
  split; [reflexivity|]. split; [reflexivity|]. split; [reflexivity|].
  exact (subscribe_invalid_budget topicX (VFunction 3) (VNumber (Fin 0)) firedOnce
           eq_refl eq_refl eq_refl).
Defined.

Lemma unsubscribe_invalid_witness :
  isSymbol (VString "handle") = false /\
  exists msg,
    unsubscribe [VString "handle"] firedOnce = (Throw (TypeError msg), firedOnce).
Proof.
  split; [reflexivity|].
  exact (unsubscribe_invalid [VString "handle"] firedOnce eq_refl).
Defined.

Lemma unsubscribe_by_handler_first_witness :
  "x"%string <> EmptyString /\
  unsubscribe [VString "x"; VFunction 2] duplicatesAfterExhausted
  = (Normal true,
     withMap [("x"%string, [mkSubscription 0 (Fin 0) 1; mkSubscription 2 PosInf 2])]
       duplicatesAfterExhausted).
Proof.
  assert (Hne : "x"%string <> EmptyString) by discriminate.
  split; [exact Hne|].
  apply (unsubscribe_by_handler_first "x" 2 duplicatesAfterExhausted
           [mkSubscription 0 (Fin 0) 1] (mkSubscription 1 PosInf 2)
           [mkSubscription 2 PosInf 2] Hne eq_refl).
  - constructor; [discriminate|constructor].
  - reflexivity.
Defined.

Lemma unsubscribe_by_handler_none_witness :
  "x"%string <> EmptyString /\
  unsubscribe [VString "x"; VFunction 5] duplicatesAfterExhausted
  = (Normal false, duplicatesAfterExhausted).
Proof.
  assert (Hne : "x"%string <> EmptyString) by discriminate.
  split; [exact Hne|].
  apply (unsubscribe_by_handler_none "x" 5 duplicatesAfterExhausted Hne).
  repeat constructor; discriminate.
Defined.

Lemma wellFormed_withFaulty : wellFormed withFaulty.
Proof.
  apply (reachable_wellFormed quiet). unfold withFaulty, after, newRegistry.
  do 3 apply reachable_subscribe. apply reachable_new.
Qed.

Lemma wellFormed_twoUnbounded : wellFormed twoUnbounded.
Proof.
  apply (reachable_wellFormed quiet). unfold twoUnbounded, after, newRegistry.
  do 2 apply reachable_subscribe. apply reachable_new.
Qed.

Lemma wellFormed_loneBudgetTwo : wellFormed loneBudgetTwo.
Proof.
  apply (reachable_wellFormed quiet). unfold loneBudgetTwo, after, newRegistry.
  apply reachable_subscribe, reachable_new.
Qed.

Lemma wellFormed_exhaustedFirst : wellFormed exhaustedFirst.
Proof. apply (reachable_wellFormed quiet), reachable_exhaustedFirst. Qed.

Lemma publishRe_none_exhausted_witness :
  "a"%string <> EmptyString /\
  wellFormed withFaulty /\
  exists r',
    publishRe (aloof quiet) (VString "a") [VNumber (Fin 43)] withFaulty
    = (Normal true, r') /\
    liveArray "a" (topicToSubscriptionsMap r')
    = [mkSubscription 0 PosInf 1; mkSubscription 1 (Fin 2) 7; mkSubscription 2 PosInf 2] /\
    calls r'
    = [(1, [VNumber (Fin 43)], Normal tt); (7, [VNumber (Fin 43)], Normal tt);
       (2, [VNumber (Fin 43)], Normal tt)].
Proof.
  assert (Hne : "a"%string <> EmptyString) by discriminate.
  split; [exact Hne|]. split; [exact wellFormed_withFaulty|].
  apply (publishRe_none_exhausted quiet "a" [VNumber (Fin 43)]
           [mkSubscription 0 PosInf 1; mkSubscription 1 (Fin 3) 7; mkSubscription 2 PosInf 2]
           withFaulty Hne wellFormed_withFaulty eq_refl).
  - discriminate.
  - repeat constructor.
  - intros sub w _. reflexivity.
Defined.

Lemma publishRe_unbounded_forever_witness :
  "x"%string <> EmptyString /\
  wellFormed twoUnbounded /\
  topicToSubscriptionsMap (publishTimesRe (aloof quiet) 3 topicX [VNull] twoUnbounded)
  = topicToSubscriptionsMap twoUnbounded /\
  calls (publishTimesRe (aloof quiet) 3 topicX [VNull] twoUnbounded)
  = [(1, [VNull], Normal tt); (2, [VNull], Normal tt);
     (1, [VNull], Normal tt); (2, [VNull], Normal tt);
     (1, [VNull], Normal tt); (2, [VNull], Normal tt)].
Proof.
  assert (Hne : "x"%string <> EmptyString) by discriminate.
  split; [exact Hne|]. split; [exact wellFormed_twoUnbounded|].
  apply (publishRe_unbounded_forever quiet "x" [VNull]
           [mkSubscription 0 PosInf 1; mkSubscription 1 PosInf 2] 3
           twoUnbounded Hne wellFormed_twoUnbounded eq_refl).
  - discriminate.
  - repeat constructor.
  - intros sub w _. reflexivity.
Defined.

Lemma publishRe_lone_lifetime_witness :
  "a"%string <> EmptyString /\
  wellFormed loneBudgetTwo /\
  (Z.of_nat 2 <= 9007199254740992)%Z /\
  Map_get "a"
    (topicToSubscriptionsMap (publishTimesRe (aloof quiet) 2 topicA [VNull] loneBudgetTwo))
  = Some [mkSubscription 0 (Fin 0) 1] /\
  calls (publishTimesRe (aloof quiet) 2 topicA [VNull] loneBudgetTwo)
  = [(1, [VNull], Normal tt); (1, [VNull], Normal tt)] /\
  fst (publishRe (aloof quiet) topicA [VNull]
         (publishTimesRe (aloof quiet) 2 topicA [VNull] loneBudgetTwo))
  = Normal true.
Proof.
  assert (Hne : "a"%string <> EmptyString) by discriminate.
  assert (Hbound : (Z.of_nat 2 <= 9007199254740992)%Z) by lia.
  split; [exact Hne|]. split; [exact wellFormed_loneBudgetTwo|].
  split; [exact Hbound|].
  destruct (publishRe_lone_lifetime quiet "a" [VNull] 0 1 2 loneBudgetTwo Hne
              wellFormed_loneBudgetTwo Hbound eq_refl) as (H1 & H2 & H3).
  - intros w. reflexivity.
  - split; [exact H1|]. split; [exact H2|]. unfold topicA. now rewrite H3.
Defined.

Lemma publishRe_calls_in_order_witness :
  "a"%string <> EmptyString /\
  wellFormed withFaulty /\
  NoDup [1; 7; 2] /\
  exists later,
    calls (snd (publishRe (aloof faulty) (VString "a") [VNumber (Fin 43)] withFaulty))
    = calls withFaulty ++ later /\
    fst <$> later `sublist_of`
      [(1, [VNumber (Fin 43)]); (7, [VNumber (Fin 43)]); (2, [VNumber (Fin 43)])] /\
    NoDup (fst <$> later).
Proof.
  assert (Hne : "a"%string <> EmptyString) by discriminate.
  assert (Hnd : NoDup [1; 7; 2]).
  { repeat (apply NoDup_cons; split; [intros H; repeat (apply elem_of_cons in H
      as [H|H]; [discriminate H|]); inversion H|]). apply NoDup_nil_2. }
  split; [exact Hne|]. split; [exact wellFormed_withFaulty|]. split; [exact Hnd|].
  exact (publishRe_calls_in_order faulty "a" [VNumber (Fin 43)] withFaulty Hne
           wellFormed_withFaulty Hnd).
Defined.

Lemma publishRe_distinct_handlers_witness :
  "a"%string <> EmptyString /\
  wellFormed exhaustedFirst /\
  exists r',
    publishRe (aloof quiet) (VString "a") [VNumber (Fin 99)] exhaustedFirst
    = (Normal true, r') /\
    liveArray "a" (topicToSubscriptionsMap r') = [mkSubscription 1 PosInf 2] /\
    calls r' = calls exhaustedFirst.
Proof.
  assert (Hne : "a"%string <> EmptyString) by discriminate.
  split; [exact Hne|]. split; [exact wellFormed_exhaustedFirst|].
  destruct (publishRe_distinct_handlers quiet "a" [VNumber (Fin 99)]
              [mkSubscription 0 (Fin 0) 1; mkSubscription 1 PosInf 2]
              exhaustedFirst Hne wellFormed_exhaustedFirst eq_refl)
    as (r' & Hpub & Hlive & Hcalls).
  - discriminate.
  - apply NoDup_cons. split.
    + intros Hin. apply list_elem_of_singleton in Hin. discriminate Hin.
    + apply NoDup_singleton.
  - intros sub w _. reflexivity.
  - exists r'. split; [exact Hpub|]. split; [exact Hlive|].
    rewrite Hcalls. apply app_nil_r.
Defined.

Lemma publishRe_frame_witness :
  wellFormed exhaustedFirst /\
  symbolCount (snd (publishRe (aloof quiet) topicA [VNull] exhaustedFirst))
  = symbolCount exhaustedFirst /\
  topicsOf (topicToSubscriptionsMap
              (snd (publishRe (aloof quiet) topicA [VNull] exhaustedFirst)))
  = topicsOf (topicToSubscriptionsMap exhaustedFirst).
Proof.
  split; [exact wellFormed_exhaustedFirst|].
  destruct (publishRe_frame quiet topicA [VNull] exhaustedFirst
              wellFormed_exhaustedFirst) as (H1 & H2 & _).
  split; [exact H2|exact H1].
Defined.
